(** * rl_tools: PPO / IPPO experience processing and losses

    A shallow embedding of
      - [src/rl/loss.py]                 (clipped policy and value losses),
      - [src/rl/algos/ippo.py]           (GAE inputs, action sampling, update loop),
      - [src/rl_tools/algos/factory.py]  (the batching lifts),
    with the properties of the specification stated against it.

    Numbers are real numbers: JAX floats are idealised, so rounding, NaN and
    infinities are out of the model.  A traced JAX value is a dual number
    (primal value and tangent along one arbitrary input direction), which is
    what [jax.lax.stop_gradient] needs to be given a meaning. *)

From Stdlib Require Import Reals Lra Lia OrdersEx.
From stdpp Require Import base option list strings gmap sorting.

(** ** [src/rl/loss.py] *)

Module Loss.

Local Open Scope R_scope.

(** A traced scalar: its value and its tangent. *)
Record dual : Type := Dual { primal : R; tangent : R }.

(** A Python float or literal entering a JAX expression: no tangent. *)
Definition const (c : R) : dual := Dual c 0.

Definition dadd (x y : dual) : dual :=
  Dual (primal x + primal y) (tangent x + tangent y).
Definition dsub (x y : dual) : dual :=
  Dual (primal x - primal y) (tangent x - tangent y).
Definition dneg (x : dual) : dual := Dual (- primal x) (- tangent x).
Definition dmul (x y : dual) : dual :=
  Dual (primal x * primal y) (tangent x * primal y + primal x * tangent y).
Definition ddiv_const (x : dual) (c : R) : dual :=
  Dual (primal x / c) (tangent x / c).
Definition dexp (x : dual) : dual :=
  Dual (exp (primal x)) (exp (primal x) * tangent x).
Definition dsquare (x : dual) : dual := dmul x x.

(** [jnp.maximum] / [jnp.minimum]: the tangent is shared evenly on a tie. *)
Definition balanced_eq (x z y : R) : R :=
  (if Req_dec_T x z then 1 else 0) / (if Req_dec_T y z then 2 else 1).
Definition maximum (x y : dual) : dual :=
  let z := Rmax (primal x) (primal y) in
  Dual z (tangent x * balanced_eq (primal x) z (primal y)
          + tangent y * balanced_eq (primal y) z (primal x)).
Definition minimum (x y : dual) : dual :=
  let z := Rmin (primal x) (primal y) in
  Dual z (tangent x * balanced_eq (primal x) z (primal y)
          + tangent y * balanced_eq (primal y) z (primal x)).

(** [jnp.clip(a, a_min, a_max)] is [minimum(a_max, maximum(a_min, a))]. *)
Definition clip (a : dual) (a_min a_max : R) : dual :=
  minimum (const a_max) (maximum (const a_min) a).

(** [jnp.fmin(x1, x2)] is [where(x1 < x2, x1, x2)] on numbers that are not NaN,
    [jnp.fmax(x1, x2)] is [where(x1 > x2, x1, x2)]. *)
Definition fmin (x1 x2 : dual) : dual :=
  if Rlt_dec (primal x1) (primal x2) then x1 else x2.
Definition fmax (x1 x2 : dual) : dual :=
  if Rgt_dec (primal x1) (primal x2) then x1 else x2.

(** [jax.lax.stop_gradient]: the identity on values, nothing flows back. *)
Definition stop_gradient (x : dual) : dual := Dual (primal x) 0.

(** An array: its shape and its elements in row-major order. *)
Record array : Type := Array { shape : list nat; data : list dual }.

(** The number of elements is the product of the sizes of the axes. *)
Definition well_shaped (a : array) : Prop :=
  length (data a) = foldr Nat.mul 1%nat (shape a).

(** The values held by an array, tangents left out. *)
Definition primals (a : array) : list R := primal <$> data a.

Definition dsum (l : list dual) : dual := foldr dadd (const 0) l.

(** [jnp.mean] over all the elements. *)
Definition mean (a : array) : dual :=
  ddiv_const (dsum (data a)) (INR (length (data a))).

(** Elementwise operations; the binary ones are only used on equal shapes. *)
Definition map1 (f : dual -> dual) (a : array) : array :=
  Array (shape a) (f <$> data a).
Definition map2 (f : dual -> dual -> dual) (a b : array) : array :=
  Array (shape a) (zip_with f (data a) (data b)).

Inductive error : Type := ShapeMismatch.

(** [chex.assert_equal_shape]: every array has the shape of the first. *)
Definition assert_equal_shape (l : list array) : bool :=
  match l with
  | [] => true
  | a :: rest => forallb (fun b => bool_decide (shape b = shape a)) rest
  end.

Record policy_infos : Type := PolicyInfos {
  loss_policy : dual;
  entropy : array;
  kl_divergence : dual
}.

Record value_infos : Type := ValueInfos { loss_value : dual }.

Section Losses.

(** [dx.Categorical(logits=logits).entropy()], from distrax. *)
Variable categorical_entropy : array -> array.

Definition loss_policy_ppo_discrete
    (logits log_probs log_probs_old gaes : array) (clip_eps entropy_coef : R)
    : error + (dual * policy_infos) :=
  if negb (assert_equal_shape [log_probs; log_probs_old; gaes])
  then inl ShapeMismatch
  else
    let log_ratios := map2 dsub log_probs log_probs_old in
    let ratios := map1 dexp log_ratios in
    let ratios_clip :=
      map1 (fun x => clip x (1 - clip_eps) (1 + clip_eps)) ratios in
    let loss_policy :=
      dneg (mean (map2 fmin (map2 dmul ratios gaes)
                            (map2 dmul ratios_clip gaes))) in
    let entropy := categorical_entropy logits in
    let loss_entropy := dneg (mean entropy) in
    let kl_divergence :=
      stop_gradient
        (mean (map2 dsub (map1 (fun x => dsub x (const 1)) ratios)
                         log_ratios)) in
    let infos := PolicyInfos loss_policy entropy kl_divergence in
    inr (dadd loss_policy (dmul (const entropy_coef) loss_entropy), infos).

Definition loss_value_clip
    (values targets values_old : array) (clip_eps : R)
    : error + (dual * value_infos) :=
  if negb (assert_equal_shape [values; values_old; targets])
  then inl ShapeMismatch
  else
    let values_clip :=
      map1 (fun x => clip x (- clip_eps) clip_eps)
           (map2 dsub values values_old) in
    let values_clip := map2 dadd values_clip values_old in
    let loss_value_unclip := map1 dsquare (map2 dsub values targets) in
    let loss_value_clip := map1 dsquare (map2 dsub values_clip targets) in
    let loss_value := mean (map2 fmax loss_value_unclip loss_value_clip) in
    let infos := ValueInfos loss_value in
    inr (loss_value, infos).

End Losses.

End Loss.

(** ** Random keys

    [jax.random.split(key, n)] is an array of [n] keys.  Its entries are given
    by a function [split_at key n i] (entry [i] of the [n]-way split), which the
    developments below take as a parameter. *)

Module Random.

Definition split {Key : Type} (split_at : Key -> nat -> nat -> Key)
    (key : Key) (n : nat) : list Key :=
  split_at key n <$> seq 0 n.

(** The free splitter: a key is the path of splits that leads to it from the
    root, each step recorded as (width of the split, index taken). *)
Definition path : Type := list (nat * nat).
Definition path_split (key : path) (n i : nat) : path := key ++ [(n, i)].

End Random.

(** ** Dicts

    A dict is the list of its items in iteration order, which in Python is
    the order in which the keys were put in.  [jax.jit] and [jax.tree_map]
    take a dict apart with its keys sorted and build dicts from that form:
    inside a jitted function, and in the result of [jax.tree_map], a dict
    holds its items in the sorted order of its keys, whatever the order in
    which the caller built it. *)

Module Dict.

(** [a < b] on the keys of a dict. *)
Class KeyOrder (K : Type) : Type := key_ltb : K -> K -> bool.

(** Strings compare by code point, position by position. *)
#[global] Instance string_key_order : KeyOrder string :=
  fun a b =>
    match String_as_OT.compare a b with
    | Lt => true
    | _ => false
    end.

#[global] Instance nat_key_order : KeyOrder nat := Nat.ltb.

(** [<] is a strict total order: what [sorted] needs of the keys. *)
Class StrictTotalKeys (K : Type) `{KeyOrder K} : Prop := {
  key_ltb_irrefl : forall a : K, key_ltb a a = false;
  key_ltb_trans : forall a b c : K,
    key_ltb a b = true -> key_ltb b c = true -> key_ltb a c = true;
  key_ltb_total : forall a b : K,
    key_ltb a b = true \/ a = b \/ key_ltb b a = true
}.

Section Sorted.

Context {K V : Type} `{KeyOrder K}.

(** An item put into a list of items, before the first one whose key is not
    below its own. *)
Fixpoint insert_item (kv : K * V) (d : list (K * V)) : list (K * V) :=
  match d with
  | [] => [kv]
  | kv' :: d' =>
      if key_ltb kv'.1 kv.1 then kv' :: insert_item kv d' else kv :: d
  end.

(** The items of a dict in the sorted order of their keys. *)
Definition sorted_items (d : list (K * V)) : list (K * V) :=
  foldr insert_item [] d.

(** The keys go up along the list. *)
Definition in_key_order (d : list (K * V)) : Prop :=
  StronglySorted (fun x y => key_ltb x.1 y.1 = true) d.

(** The items of a dict whose keys are below [a], and their number. *)
Definition below (a : K) (d : list (K * V)) : list (K * V) :=
  filter (fun y => key_ltb y.1 a = true) d.

Definition rank (a : K) (d : list (K * V)) : nat := length (below a d).

End Sorted.

End Dict.

(** ** [src/rl/algos/ippo.py] *)

Module Ippo.

Local Open Scope R_scope.

Record ParamsPolicyValue (PE PV : Type) : Type :=
  Params { params_encoder : PE; params_value : PV }.
Arguments Params {PE PV} _ _.
Arguments params_encoder {PE PV} _.
Arguments params_value {PE PV} _.

Section ProcessExperience.

Context {PE PV Obs Hidden Val Gaes Targets : Type}.

(** [train_state.encoder_fn] and [train_state.value_fn], applied to a batch
    whose leading axis is time. *)
Variable encoder_fn : PE -> list Obs -> list Hidden.
Variable value_fn : PV -> list Hidden -> list Val.

(** [config.gamma], [config._lambda], [config.normalize]. *)
Variable gamma _lambda : R.
Variable normalize : bool.

(** [rl.timesteps.calculate_gaes_targets]. *)
Variable calculate_gaes_targets :
  list Val -> list Val -> list (list R) -> list (list R) -> R -> bool ->
  Gaes * Targets.

(** The four arrays that [compute_values_gaes] hands to
    [calculate_gaes_targets]: values, next_values, discounts, rewards.
    [x[..., None]] turns every entry into an array of one element. *)
Definition compute_values_gaes_inputs
    (params : ParamsPolicyValue PE PV)
    (observations next_observations : list Obs) (dones rewards : list R)
    : list Val * list Val * list (list R) * list (list R) :=
  let all_obs :=
    observations ++ drop (length next_observations - 1) next_observations in
  let all_hiddens := encoder_fn (params_encoder params) all_obs in
  let all_values := value_fn (params_value params) all_hiddens in
  let values := take (length all_values - 1) all_values in
  let next_values := drop 1 all_values in
  let not_dones := (fun d => [1 - d]) <$> dones in
  let discounts := (fun nd => Rmult gamma <$> nd) <$> not_dones in
  let rewards := (fun r => [r]) <$> rewards in
  (values, next_values, discounts, rewards).

Definition compute_values_gaes
    (params : ParamsPolicyValue PE PV)
    (observations next_observations : list Obs) (dones rewards : list R)
    : Gaes * Targets * list Val :=
  let '(values, next_values, discounts, rewards) :=
    compute_values_gaes_inputs params observations next_observations
                               dones rewards in
  let '(gaes, targets) :=
    calculate_gaes_targets values next_values discounts rewards
                           _lambda normalize in
  (gaes, targets, values).

End ProcessExperience.

Section Explore.

Context {Key Agent ParamsT Obs Action LogProb : Type}.
Variable split_at : Key -> nat -> nat -> Key.

(** [self.explore_fn]. *)
Variable explore_fn : ParamsT -> Key -> Obs -> Action * LogProb.

(** [PPO.explore]: the inner [fn], a plain Python function: the loop takes
    the agents in the order in which the caller built the dict. *)
Fixpoint explore (params : ParamsT) (key : Key)
    (observation : list (Agent * Obs))
    : list (Agent * Action) * list (Agent * LogProb) :=
  match observation with
  | [] => ([], [])
  | (agent, obs) :: rest =>
      let _k := split_at key 2 1 in
      let key := split_at key 2 0 in
      let '(a, lp) := explore_fn params _k obs in
      let '(action, log_prob) := explore params key rest in
      ((agent, a) :: action, (agent, lp) :: log_prob)
  end.

End Explore.

Inductive update_error : Type := ZeroDivisionError | UnboundLocalError.

Section Update.

Context {Key State ParamsT Sample Experiences V : Type}.
Variable split_at : Key -> nat -> nat -> Key.

(** [state.params], [self.process_experience_fn], [self.update_step_fn],
    [self.config.num_epochs], a Python [int]. *)
Variable state_params : State -> ParamsT.
Variable process_experience_fn : ParamsT -> Sample -> Experiences.
Variable update_step_fn :
  State -> Key -> Experiences -> State * R * gmap string V.
Variable num_epochs : Z.

(** A scalar stored as a diagnostics value. *)
Variable scalar : R -> V.

(** The [for epoch in range(...)] loop of [PPO.update], run [n] times; [info]
    is unbound ([None]) until the first iteration. *)
Fixpoint epochs (n : nat) (experiences : Experiences)
    (state : State) (key : Key) (loss : R) (info : option (gmap string V))
    : State * R * option (gmap string V) :=
  match n with
  | O => (state, loss, info)
  | S n' =>
      let _k := split_at key 2 1 in
      let key := split_at key 2 0 in
      let '(state, l, info) := update_step_fn state _k experiences in
      epochs n' experiences state key (loss + l) (Some info)
  end.

(** [PPO.update]: the inner [fn].  [range(num_epochs)] has
    [max(num_epochs, 0)] elements; the division raises on zero only, and
    [info["total_loss"] = loss] reads [info]. *)
Definition update (state : State) (key : Key) (sample : Sample)
    : update_error + (State * gmap string V) :=
  let experiences := process_experience_fn (state_params state) sample in
  let '(state, loss, info) :=
    epochs (Z.to_nat num_epochs) experiences state key 0 None in
  if decide (num_epochs = 0%Z) then inl ZeroDivisionError
  else
    let loss := loss / IZR num_epochs in
    match info with
    | None => inl UnboundLocalError
    | Some info => inr (state, <["total_loss" := scalar loss]> info)
    end.

End Update.

End Ippo.

(** ** [src/rl_tools/algos/factory.py] *)

Module Factory.

(** An array with at least two axes, seen from the outside: [rows] runs over
    axis 0 (time), every row runs over axis 1 (environment index), and an entry
    stands for everything behind these two axes.  [shape1] is the size of
    axis 1, which the rows alone would not tell when there is no row. *)
Record array2 (X : Type) : Type := Array2 { shape1 : nat; rows : list (list X) }.
Arguments Array2 {X} _ _.
Arguments shape1 {X} _.
Arguments rows {X} _.

Definition shape0 {X : Type} (x : array2 X) : nat := length (rows x).

(** Arrays are rectangular. *)
Definition rectangular {X : Type} (x : array2 X) : Prop :=
  Forall (fun r => length r = shape1 x) (rows x).

(** [x[:, e]]. *)
Definition column {X : Type} (e : nat) (x : array2 X) : list X :=
  omap (fun r => r !! e) (rows x).

(** Entry [(t, i)] of a list of rows. *)
Definition entry {X : Type} (m : list (list X)) (t i : nat) : option X :=
  m !! t ≫= fun row => row !! i.

(** [AlgoFactory.intialize]: [vectorized = n_envs > 1] and
    [parallel = n_agents > 1]. *)
Definition vectorized_of (n_envs : nat) : bool := bool_decide (1 < n_envs).
Definition parallel_of (n_agents : nat) : bool := bool_decide (1 < n_agents).

(** [jnp.stack(xs, axis=1)] of arrays given by their entries along axis 0:
    entry [t] of the result lists entry [t] of every array.  It raises on no
    array and on arrays of different lengths. *)
Fixpoint stack1 {X : Type} (xs : list (list X)) : option (list (list X)) :=
  match xs with
  | [] => None
  | x :: xs' =>
      match xs' with
      | [] => Some ((fun y => [y]) <$> x)
      | _ :: _ =>
          match stack1 xs' with
          | None => None
          | Some out =>
              if decide (length x = length out)
              then Some (zip_with cons x out) else None
          end
      end
  end.

(** [jnp.concatenate(xs, axis=1)]: row [t] of the result is the rows [t] of
    the arrays one after the other.  It raises on no array and on arrays
    with different numbers of rows. *)
Fixpoint concatenate1 {X : Type} (xs : list (list (list X)))
    : option (list (list X)) :=
  match xs with
  | [] => None
  | x :: xs' =>
      match xs' with
      | [] => Some x
      | _ :: _ =>
          match concatenate1 xs' with
          | None => None
          | Some out =>
              if decide (length x = length out)
              then Some (zip_with app x out) else None
          end
      end
  end.

(** [jnp.reshape(out, (-1, *out.shape[2:]))]: axes 0 and 1 become one, in
    row-major order. *)
Definition reshape_merge {X : Type} (out : list (list X)) : list X := concat out.

Definition concat_and_reshape {X : Type} (x : list (list (list X)))
    : option (list X) :=
  reshape_merge <$> concatenate1 x.

Definition stack_and_reshape {X : Type} (x : list (list X)) : option (list X) :=
  reshape_merge <$> stack1 x.

Section ProcessExperience.

Context {Key Agent State Tr Y Leaf Raw : Type} `{Dict.KeyOrder Agent}.
Variable split_at : Key -> nat -> nat -> Key.

(** The wrapped function.  It sees one agent in one environment: the
    transitions of the time window (the fields of the experience tuple share
    their leading axes, so a transition holds that entry of every field).
    Its result is a pytree of arrays, here a function from the position of a
    leaf to the entries of that leaf along its leading axis. *)
Variable process_experience_fn : State -> Key -> list Tr -> Leaf -> list Y.

(** What [stack_experiences] returns in each regime.  For several agents it
    is a dict over the agents. *)
Definition stacked (vectorized parallel : bool) : Type :=
  match parallel, vectorized with
  | true, true => list (Agent * array2 Tr)
  | true, false => list (Agent * list Tr)
  | false, true => array2 Tr
  | false, false => list Tr
  end.

(** [rl_tools.buffer.stack_experiences]. *)
Variable stack_experiences :
  forall vectorized parallel : bool, Raw -> stacked vectorized parallel.

(** [jax.vmap(_process_experience_fn, in_axes=1, out_axes=1)] on the keys and
    the fields of one agent: the function runs on every column, the results
    are put side by side along axis 1.  (An empty mapped axis is out of the
    model: [stack1] has nothing to take the result shape from.) *)
Definition vmap_process (state : State) (keys : list Key) (x : array2 Tr)
    (j : Leaf) : option (list (list Y)) :=
  stack1 (zip_with (fun k e => process_experience_fn state k (column e x) j)
                   keys (seq 0 (shape1 x))).

(** The loop that fills [keys] when [parallel and vectorized], over the items
    of [experience.observation] as the loop meets them.  The keys of an
    agent are [new_keys[1:]] (the swap of axes and [in_axes=1] cancel out),
    the key that goes on to the next agent is [new_keys[0]]. *)
Fixpoint vectorized_parallel_keys (key : Key)
    (observation : list (Agent * array2 Tr)) : list (Agent * list Key) :=
  match observation with
  | [] => []
  | (agent, obs) :: rest =>
      let n := (shape1 obs + 1)%nat in
      let new_keys := Random.split split_at key n in
      (agent, drop 1 new_keys)
        :: vectorized_parallel_keys (split_at key n 0) rest
  end.

(** The loop that fills [keys] when only [parallel], over the items of
    [experience.observation] as the loop meets them. *)
Fixpoint parallel_keys (key : Key) (observation : list (Agent * list Tr))
    : list (Agent * Key) :=
  match observation with
  | [] => []
  | (agent, _) :: rest =>
      (agent, split_at key 2 1) :: parallel_keys (split_at key 2 0) rest
  end.

(** [jax.tree_map(f, *zip(outputs.values()))[0]]: leaf by leaf, [f] on that
    leaf of every agent's output. *)
Definition tree_map_outputs {A B : Type} (f : list A -> option B)
    (outputs : list (Leaf -> option A)) (j : Leaf) : option B :=
  mapM (fun o => o j) outputs ≫= f.

(** [outputs] when [parallel and vectorized], for the dict that the loop
    walks.  [jax.tree_map] pairs the keys and the fields of an agent by its
    name; [keys] is filled from the same dict, so the pairing is by
    position. *)
Definition outputs_vectorized_parallel (state : State) (key : Key)
    (experience : list (Agent * array2 Tr))
    : list (Leaf -> option (list (list Y))) :=
  let keys := vectorized_parallel_keys key experience in
  zip_with (fun k x => vmap_process state k.2 x.2) keys experience.

(** [outputs] when only [parallel]. *)
Definition outputs_parallel_only (state : State) (key : Key)
    (experience : list (Agent * list Tr)) : list (Leaf -> option (list Y)) :=
  let keys := parallel_keys key experience in
  zip_with (fun k x j => Some (process_experience_fn state k.2 x.2 j))
           keys experience.

(** The branch [if parallel and vectorized] of [fn].  [fn] is jitted: the
    dict it works on holds the agents in the sorted order of their ids. *)
Definition fn_vectorized_parallel (state : State) (key : Key)
    (experience : list (Agent * array2 Tr)) : Leaf -> option (list Y) :=
  let experience := Dict.sorted_items experience in
  let outputs := outputs_vectorized_parallel state key experience in
  tree_map_outputs concat_and_reshape outputs.

(** The branch [elif parallel] of [fn], jitted as well. *)
Definition fn_parallel_only (state : State) (key : Key)
    (experience : list (Agent * list Tr)) : Leaf -> option (list Y) :=
  let experience := Dict.sorted_items experience in
  let outputs := outputs_parallel_only state key experience in
  tree_map_outputs stack_and_reshape outputs.

Definition fn_vectorized_only (state : State) (key : Key)
    (experience : array2 Tr) : Leaf -> option (list Y) :=
  let keys := Random.split split_at key (shape1 experience) in
  fun j => reshape_merge <$> vmap_process state keys experience j.

(** The function returned by [process_experience_general_factory]; [None]
    on a leaf stands for a raised error. *)
Definition process_experience_general_factory (vectorized parallel : bool)
    (state : State) (key : Key) (experience : Raw) : Leaf -> option (list Y) :=
  let experience := stack_experiences vectorized parallel experience in
  match parallel as p, vectorized as v
        return stacked v p -> Leaf -> option (list Y) with
  | true, true => fn_vectorized_parallel state key
  | true, false => fn_parallel_only state key
  | false, true => fn_vectorized_only state key
  | false, false =>
      fun experience j => Some (process_experience_fn state key experience j)
  end experience.

End ProcessExperience.

(** An array of any rank: a scalar, or the list of its entries along
    axis 0. *)
#[warnings="-register-all"]
Inductive ndarray (X : Type) : Type :=
  | Scalar (x : X)
  | Arr (entries : list (ndarray X)).
Arguments Scalar {X} _.
Arguments Arr {X} _.

(** [jnp.expand_dims(x, axis=0)]. *)
Definition expand_dims0 {X : Type} (x : ndarray X) : ndarray X := Arr [x].

(** [jnp.squeeze(x, axis=0)]: raises unless axis 0 has size one. *)
Definition squeeze0 {X : Type} (x : ndarray X) : option (ndarray X) :=
  match x with
  | Arr [y] => Some y
  | _ => None
  end.

Section Explore.

Context {Key State X Hyper : Type}.

(** The wrapped function: state, key, the leaves of the input trees,
    hyperparameters; it returns the leaves of its outputs. *)
Variable explore_fn :
  State -> Key -> list (ndarray X) -> Hyper -> list (ndarray X).

Definition input_fn (vectorized : bool) (inputs : list (ndarray X))
    : list (ndarray X) :=
  if negb vectorized then expand_dims0 <$> inputs else inputs.

Definition output_fn (vectorized : bool) (outputs : list (ndarray X))
    : option (list (ndarray X)) :=
  if negb vectorized then mapM squeeze0 outputs else Some outputs.

(** The function returned by [explore_general_factory] when [parallel] is
    false, so that [explore_fn] is called as it is.  [None] stands for a
    raised error. *)
Definition explore_general_factory (vectorized : bool)
    (state : State) (key : Key) (trees : list (ndarray X))
    (hyperparams : Hyper) : option (list (ndarray X)) :=
  let inputs := input_fn vectorized trees in
  let results := explore_fn state key inputs hyperparams in
  let outputs := output_fn vectorized results in
  outputs.

End Explore.

End Factory.

(** ** The specification's formulas

    Written after the specification's text, on plain real numbers, to be
    compared with the code above. *)

Module Spec.

Local Open Scope R_scope.

Definition clip (x lo hi : R) : R := Rmin hi (Rmax lo x).

Definition mean (l : list R) : R := foldr Rplus 0 l / INR (length l).

(** [policy_loss = -mean(min(ratio*advantage, clipped_ratio*advantage))]. *)
Definition surrogate (eps log_prob log_prob_old advantage : R) : R :=
  let ratio := exp (log_prob - log_prob_old) in
  Rmin (ratio * advantage) (clip ratio (1 - eps) (1 + eps) * advantage).

Definition policy_loss (log_probs log_probs_old advantages : list R) (eps : R)
    : R :=
  - mean (zip_with (fun l oa => surrogate eps l oa.1 oa.2)
                   log_probs (zip log_probs_old advantages)).

(** [entropy_loss = -mean(entropy)]. *)
Definition entropy_loss (entropy : list R) : R := - mean entropy.

(** [kl_estimate = mean((ratio - 1) - log_ratio)]. *)
Definition kl_estimate (log_probs log_probs_old : list R) : R :=
  mean (zip_with (fun l o => (exp (l - o) - 1) - (l - o))
                 log_probs log_probs_old).

(** [value_loss = mean(max((values - targets)^2,
                           (values_old + clip(values - values_old, -eps, eps)
                            - targets)^2))]. *)
Definition value_loss (values targets values_old : list R) (eps : R) : R :=
  mean (zip_with (fun v to =>
                    Rmax ((v - to.1) ^ 2)
                         ((to.2 + clip (v - to.2) (- eps) eps - to.1) ^ 2))
                 values (zip targets values_old)).

(** The key carried along a chain of splits of the given widths: entry 0 of
    every split is split again. *)
Definition carried {Key : Type} (split_at : Key -> nat -> nat -> Key)
    (key : Key) (widths : list nat) : Key :=
  foldl (fun k n => split_at k n 0%nat) key widths.

(** The sub-key taken at position [p] of a loop that splits its key in two
    at every turn, keeps entry 0 and hands out entry 1. *)
Definition turn_key {Key : Type} (split_at : Key -> nat -> nat -> Key)
    (key : Key) (p : nat) : Key :=
  split_at (carried split_at key (replicate p 2%nat)) 2%nat 1%nat.

(** The sub-key of environment [e] of an agent with [E] environments that
    is served after agents with [envs_before] environments, in a loop that
    splits its key in one more than the number of environments of the agent
    at every turn, keeps entry 0 and hands out the other entries. *)
Definition env_key {Key : Type} (split_at : Key -> nat -> nat -> Key)
    (key : Key) (envs_before : list nat) (E e : nat) : Key :=
  split_at (carried split_at key ((fun n => n + 1)%nat <$> envs_before))
           (E + 1)%nat (1 + e)%nat.

Section Epochs.

Context {Key State Experiences V : Type}.
Variable split_at : Key -> nat -> nat -> Key.
Variable update_step_fn :
  State -> Key -> Experiences -> State * R * gmap string V.
Variable experiences : Experiences.
Variable state : State.
Variable key : Key.

(** The state that enters gradient step [i] (steps count from 0), each step
    running on the state the step before it produced, with the sub-key of its
    epoch. *)
Fixpoint state_at (i : nat) : State :=
  match i with
  | O => state
  | S i' =>
      (update_step_fn (state_at i') (turn_key split_at key i') experiences).1.1
  end.

Definition loss_at (i : nat) : R :=
  (update_step_fn (state_at i) (turn_key split_at key i) experiences).1.2.

Definition info_at (i : nat) : gmap string V :=
  (update_step_fn (state_at i) (turn_key split_at key i) experiences).2.

Definition loss_sum (n : nat) : R := foldr Rplus 0 (loss_at <$> seq 0 n).

End Epochs.

End Spec.

(** ** Concrete instances used by the examples below *)

Module Instances.

Import Factory.

(** A traced vector: every entry moves at unit rate along the direction of
    differentiation. *)
Definition traced (l : list R) : Loss.array :=
  Loss.Array [length l] ((fun x => Loss.Dual x 1) <$> l).

Definition vec_a : Loss.array := traced [0; 1]%R.
Definition vec_b : Loss.array := traced [2; -1]%R.
Definition vec_short : Loss.array := traced [0]%R.

(** A gradient step that counts the steps taken, with loss one and no
    diagnostics. *)
Definition counting_step (s : nat) (_ : Random.path) (_ : unit)
    : nat * R * gmap string R := (S s, 1%R, ∅).

(** Networks that act on every row by itself. *)
Definition shift_rows (_ : unit) (xs : list nat) : list nat := S <$> xs.
Definition double_rows (_ : unit) (hs : list nat) : list nat :=
  (fun h => 2 * h) <$> hs.

(** An estimator that returns the next values it is given. *)
Definition echo_next_values (_ next_values : list nat) (_ _ : list (list R))
    (_ : R) (_ : bool) : list nat * unit := (next_values, tt).

(** A dict read at a key. *)
Definition dict_get {V : Type} (k : string) (d : list (string * V)) : option V :=
  snd <$> List.find (fun p => bool_decide (p.1 = k)) d.

(** A single-instance process function that returns its time window. *)
Definition window (_ : unit) (_ : Random.path) (transitions : list nat)
    (_ : unit) : list nat := transitions.

(** Two agents, two environments, two time steps. *)
Definition two_by_two : list (string * array2 nat) :=
  [("a"%string, Array2 2 [[1; 2]; [3; 4]]);
   ("b"%string, Array2 2 [[5; 6]; [7; 8]])]%nat.

Definition only_b : list (string * array2 nat) :=
  [("b"%string, Array2 2 [[5; 6]; [7; 8]])]%nat.

(** The two agents of [two_by_two], put into the dict the other way
    round. *)
Definition b_then_a : list (string * array2 nat) :=
  [("b"%string, Array2 2 [[5; 6]; [7; 8]]);
   ("a"%string, Array2 2 [[1; 2]; [3; 4]])]%nat.

(** A single-instance process function that returns, for every step of its
    window, the key it was called with. *)
Definition key_per_step (_ : unit) (k : Random.path) (transitions : list nat)
    (_ : unit) : list Random.path := (fun _ => k) <$> transitions.

(** A sampling function that returns the key it was called with. *)
Definition sample_key (_ : unit) (k : Random.path) (_ : nat)
    : Random.path * unit := (k, tt).

(** Stacking for a single agent in a single environment when the buffer
    already holds the time window; nothing in the other regimes. *)
Definition stack_window (vectorized parallel : bool) (raw : list nat)
    : @stacked string nat vectorized parallel :=
  match parallel as p, vectorized as v return @stacked string nat v p with
  | true, true => []
  | true, false => []
  | false, true => Array2 0 []
  | false, false => raw
  end.

(** A sampling function written for one observation: it returns [x[:1]]. *)
Definition first_entry (x : ndarray nat) : ndarray nat :=
  match x with
  | Scalar v => Scalar v
  | Arr entries => Arr (take 1 entries)
  end.
Definition explore_first (_ : unit) (_ : Random.path)
    (trees : list (ndarray nat)) (_ : unit) : list (ndarray nat) :=
  first_entry <$> trees.

(** A sampling function that acts on every entry of axis 0 by itself:
    it doubles the numbers. *)
Fixpoint double_all (x : ndarray nat) : ndarray nat :=
  match x with
  | Scalar v => Scalar (2 * v)%nat
  | Arr entries => Arr (map double_all entries)
  end.
Definition explore_double (_ : unit) (_ : Random.path)
    (trees : list (ndarray nat)) (_ : unit) : list (ndarray nat) :=
  double_all <$> trees.

End Instances.

(** ** [src/rl_tools/algos/factory.py]: the lift over agents of the sampling
    function *)

Module ParallelExplore.

Import Factory.

Section FnParallel.

Context {Agent ParamsT Args Hyper Out : Type} `{Dict.KeyOrder Agent}.

(** The wrapped function: parameters, the agent's entry of every tree,
    hyperparameters; it returns a tuple of outputs. *)
Variable fn : ParamsT -> Args -> Hyper -> list Out.

(** The entry that output dict [i] takes from one item of [res]:
    [(a, v[i])]. *)
Definition pick (i : nat) (av : Agent * list Out) : option (Agent * Out) :=
  (fun o => (av.1, o)) <$> av.2 !! i.

(** One turn of the loop [for a, v in res.items()]: every output dict gets
    the agent's entry [v[i]]; [v[i]] raises when [v] is too short, and what
    [v] has beyond the output dicts is left. *)
Definition scatter_outputs (outputs : option (list (list (Agent * Out))))
    (av : Agent * list Out) : option (list (list (Agent * Out))) :=
  outputs ≫= fun outputs =>
    if decide (length outputs <= length av.2)
    then Some (zip_with (fun d o => d ++ [(av.1, o)]) outputs av.2)
    else None.

(** [fn_parallel(fn)]: [_fn].  The trees are dicts over the same agents; an
    item of [trees] holds an agent and its entry of every tree.  [res] comes
    from [jax.tree_map]: it holds the agents in the sorted order of their
    ids, so that the first agent is the one with the least id.  [None] stands
    for a raised [IndexError]. *)
Definition fn_parallel (params : ParamsT) (trees : list (Agent * Args))
    (hyperparams : Hyper) : option (list (list (Agent * Out))) :=
  let res :=
    (fun ax => (ax.1, fn params ax.2 hyperparams))
    <$> Dict.sorted_items trees in
  match res with
  | [] => None
  | (_, v0) :: _ =>
      let n_outputs := length v0 in
      foldl scatter_outputs (Some (replicate n_outputs [])) res
  end.

End FnParallel.

Section Explore.

Context {Key Agent State X Hyper : Type} `{Dict.KeyOrder Agent}.
Variable explore_fn :
  State -> Key -> list (ndarray X) -> Hyper -> list (ndarray X).

(** The function returned by [explore_general_factory] when [parallel] is
    true.  [key] is then a dict of keys, the first of the trees that
    [fn_parallel] maps over; an item of [trees] holds an agent, its key and
    its entry of every input tree.  [input_fn] touches the inputs only. *)
Definition explore_general_factory_parallel (vectorized : bool)
    (state : State) (trees : list (Agent * (Key * list (ndarray X))))
    (hyperparams : Hyper) : option (list (list (Agent * ndarray X))) :=
  let inputs :=
    (fun akx => (akx.1, (akx.2.1, input_fn vectorized akx.2.2))) <$> trees in
  let results :=
    fn_parallel (fun s kx h => explore_fn s kx.1 kx.2 h) state inputs
      hyperparams in
  results ≫= fun results =>
    if negb vectorized
    then mapM (mapM (fun ao => (fun o => (ao.1, o)) <$> squeeze0 ao.2)) results
    else Some results.

End Explore.

End ParallelExplore.

(** ** [src/rl/algos/ippo.py]: [process_experience_factory] *)

Module IppoBatch.

Import Factory.

Inductive error : Type := KeyError | ValueError.

(** The fields of a stacked [OnPolicyExp] that [fn] reads.  With several
    agents every field is a dict, the list of its items in iteration order;
    [fn] is jitted, so that this is the sorted order of the ids (see
    [Dict]). *)
Record OnPolicyExp (O A L W : Type) : Type := Exp {
  observation : list O;
  action : list A;
  reward : list W;
  done : list W;
  next_observation : list O;
  log_prob : list L
}.
Arguments Exp {O A L W} _ _ _ _ _ _.
Arguments observation {O A L W} _.
Arguments action {O A L W} _.
Arguments reward {O A L W} _.
Arguments done {O A L W} _.
Arguments next_observation {O A L W} _.
Arguments log_prob {O A L W} _.

(** What [fn] returns. *)
Record batch (O A L G V : Type) : Type := Batch {
  observations : O;
  actions : A;
  log_probs : L;
  gaes : G;
  targets : G;
  values : V
}.
Arguments Batch {O A L G V} _ _ _ _ _ _.
Arguments observations {O A L G V} _.
Arguments actions {O A L G V} _.
Arguments log_probs {O A L G V} _.
Arguments gaes {O A L G V} _.
Arguments targets {O A L G V} _.
Arguments values {O A L G V} _.

(** [d[k]]: the value under the key, [None] for a [KeyError]. *)
Definition getitem {K V : Type} `{EqDecision K} (k : K) (d : list (K * V))
    : option V :=
  snd <$> List.find (fun kv => bool_decide (kv.1 = k)) d.

(** [jnp.concatenate(list(d.values()), axis=1)]. *)
Definition concatenate_values {K X : Type} (d : list (K * list (list X)))
    : error + list (list X) :=
  match concatenate1 (snd <$> d) with
  | Some out => inr out
  | None => inl ValueError
  end.

(** [x[..., None]] on an array with one axis, and on one with two. *)
Definition new_axis1 {X : Type} (x : list X) : list (list X) :=
  (fun a => [a]) <$> x.

Section Fn.

Context {Agent : Type} `{EqDecision Agent}.
Context {PE PV Hidden G V : Type}.

(** [config.gamma], [config._lambda], [config.normalize]. *)
Variable gamma _lambda : R.
Variable normalize : bool.

(** [rl.timesteps.calculate_gaes_targets]; its results have time as their
    leading axis. *)
Variable calculate_gaes_targets :
  list (list V) -> list (list V) -> list (list R) -> list (list R) -> R ->
  bool -> list (list G) * list (list G).

(** The loop [for agent in observations.keys()]: the agent's arrays are
    looked up in the other fields, [gaes_fn] runs on them, and the three
    results go into three dicts under the agent. *)
Fixpoint gaes_loop {O W GTV : Type} (gaes_fn : O -> O -> W -> W -> error + GTV)
    (next_observations : list (Agent * O)) (dones rewards : list (Agent * W))
    (observations : list (Agent * O)) : error + list (Agent * GTV) :=
  match observations with
  | [] => inr []
  | (agent, obs) :: rest =>
      match getitem agent next_observations, getitem agent dones,
            getitem agent rewards with
      | Some next_obs, Some d, Some r =>
          match gaes_fn obs next_obs d r with
          | inl e => inl e
          | inr gtv =>
              match gaes_loop gaes_fn next_observations dones rewards rest with
              | inl e => inl e
              | inr out => inr ((agent, gtv) :: out)
              end
          end
      | _, _, _ => inl KeyError
      end
  end.


(** The six concatenations along axis 1, in the order of the source. *)
Definition concatenate_all {X Y Z G' V' : Type}
    (observations : list (Agent * list (list X)))
    (actions : list (Agent * list (list Y)))
    (log_probs : list (Agent * list (list Z)))
    (gtv : list (Agent * (list (list G') * list (list G') * list (list V'))))
    : error + batch (list (list X)) (list (list Y)) (list (list Z))
                    (list (list G')) (list (list V')) :=
  match concatenate_values observations with
  | inl e => inl e
  | inr o =>
  match concatenate_values actions with
  | inl e => inl e
  | inr a =>
  match concatenate_values log_probs with
  | inl e => inl e
  | inr l =>
  match concatenate_values ((fun ag => (ag.1, ag.2.1.1)) <$> gtv) with
  | inl e => inl e
  | inr g =>
  match concatenate_values ((fun ag => (ag.1, ag.2.1.2)) <$> gtv) with
  | inl e => inl e
  | inr t =>
  match concatenate_values ((fun ag => (ag.1, ag.2.2)) <$> gtv) with
  | inl e => inl e
  | inr v => inr (Batch o a l g t v)
  end end end end end end.

Section Unvectorized.

Context {F Act Lp : Type}.

(** [train_state.encoder_fn] and [train_state.value_fn]; an observation is a
    row, the entries of an array along axis 1. *)
Variable encoder_fn : PE -> list (list F) -> list Hidden.
Variable value_fn : PV -> list Hidden -> list (list V).

(** [fn] when [vectorized] is false, on the stacked sample. *)
Definition fn_unvectorized (params : Ippo.ParamsPolicyValue PE PV)
    (stacked : OnPolicyExp (Agent * list (list F)) (Agent * list Act)
                 (Agent * list Lp) (Agent * list R))
    : error + batch (list (list F)) (list (list Act)) (list (list Lp))
                    (list (list G)) (list (list V)) :=
  let gaes_fn obs next_obs d r :=
    inr (Ippo.compute_values_gaes encoder_fn value_fn gamma _lambda normalize
           calculate_gaes_targets params obs next_obs d r) in
  match gaes_loop gaes_fn (next_observation stacked) (done stacked)
          (reward stacked) (observation stacked) with
  | inl e => inl e
  | inr gtv =>
      let actions' := (fun ax => (ax.1, new_axis1 ax.2)) <$> action stacked in
      let log_probs' :=
        (fun ax => (ax.1, new_axis1 ax.2)) <$> log_prob stacked in
      concatenate_all (observation stacked) actions' log_probs' gtv
  end.

End Unvectorized.

Section Vectorized.

Context {X Act Lp : Type}.

(** [train_state.encoder_fn] and [train_state.value_fn]; an observation is
    what one environment shows at one step. *)
Variable encoder_fn : PE -> list X -> list Hidden.
Variable value_fn : PV -> list Hidden -> list (list V).




End Vectorized.

End Fn.

End IppoBatch.

(** ** More concrete instances *)

Module Samples.

Import Factory ParallelExplore IppoBatch.

(** A function with two outputs. *)
Definition two_outputs (_ : unit) (x : nat) (_ : unit) : list nat :=
  [x; x + 1].


(** Two steps of two environments. *)
Definition one_array : array2 nat := Array2 2 [[1; 2]; [3; 4]].

(** Two agents with two steps of one environment each. *)
Definition one_column : list (string * array2 nat) :=
  [("a"%string, Array2 1 [[1]; [2]]); ("b"%string, Array2 1 [[3]; [4]])].

(** Two agents with a window of two steps each, agent ["b"] put in
    first. *)
Definition windows_b_first : list (string * list nat) :=
  [("b"%string, [3; 4]); ("a"%string, [1; 2])].


(** Two agents with their keys and one observation each, agent ["b"] put in
    first. *)
Definition observers_b_first
    : list (string * (Random.path * list (ndarray nat))) :=
  [("b"%string, ([(2, 0); (2, 1)], [Arr [Scalar 2]]));
   ("a"%string, ([(2, 1)], [Arr [Scalar 1]]))].




End Samples.


(** * Properties *)

(** ** Dicts in the sorted order of their keys *)

Module DictProofs.

Import Dict.

#[global] Instance string_keys_total : StrictTotalKeys string.
Proof.
  split; unfold key_ltb, string_key_order.
  - intros a. destruct (String_as_OT.compare_spec a a) as [_|Hlt|Hlt];
      [reflexivity | |]; now apply irreflexivity in Hlt.
  - intros a b c Hab Hbc.
    destruct (String_as_OT.compare a b) eqn:Eab; try discriminate.
    destruct (String_as_OT.compare b c) eqn:Ebc; try discriminate.
    assert (Hac : String_as_OT.lt a c) by (etransitivity; eassumption).
    unfold String_as_OT.lt in Hac. now rewrite Hac.
  - intros a b.
    destruct (String_as_OT.compare_spec a b) as [Heq|Hlt|Hgt].
    + right. left. exact Heq.
    + left. reflexivity.
    + right. right. unfold String_as_OT.lt in Hgt. now rewrite Hgt.
Qed.

#[global] Instance nat_keys_total : StrictTotalKeys nat.
Proof.
  split; unfold key_ltb, nat_key_order.
  - intros a. apply Nat.ltb_irrefl.
  - intros a b c Hab%Nat.ltb_lt Hbc%Nat.ltb_lt. apply Nat.ltb_lt. lia.
  - intros a b. rewrite !Nat.ltb_lt. lia.
Qed.

Section Sorted.

Context {K V : Type} `{KeyOrder K}.

Lemma insert_item_Permutation (kv : K * V) (d : list (K * V)) :
  insert_item kv d ≡ₚ kv :: d.
Proof.
  induction d as [|kv' d IH]; [reflexivity|].
  cbn [insert_item]. destruct (key_ltb kv'.1 kv.1); [|reflexivity].
  rewrite IH. apply perm_swap.
Qed.

(** Sorting changes the order of the items, nothing else. *)
Lemma sorted_items_Permutation (d : list (K * V)) : sorted_items d ≡ₚ d.
Proof.
  induction d as [|kv d IH]; [reflexivity|].
  cbn [sorted_items foldr]. fold (sorted_items d).
  now rewrite insert_item_Permutation, IH.
Qed.

Lemma length_sorted_items (d : list (K * V)) :
  length (sorted_items d) = length d.
Proof. now rewrite sorted_items_Permutation. Qed.

Lemma sorted_items_nil (d : list (K * V)) : sorted_items d = [] <-> d = [].
Proof.
  split; [|now intros ->].
  intros Hs. apply Permutation_nil. now rewrite <- Hs, sorted_items_Permutation.
Qed.

Lemma Forall_sorted_items (P : K * V -> Prop) (d : list (K * V)) :
  Forall P (sorted_items d) <-> Forall P d.
Proof. now rewrite sorted_items_Permutation. Qed.

Lemma Exists_sorted_items (P : K * V -> Prop) (d : list (K * V)) :
  Exists P (sorted_items d) <-> Exists P d.
Proof. now rewrite sorted_items_Permutation. Qed.

Lemma elem_of_sorted_items (kv : K * V) (d : list (K * V)) :
  kv ∈ sorted_items d <-> kv ∈ d.
Proof. now rewrite sorted_items_Permutation. Qed.

End Sorted.

Section Fmap.

Context {K V W : Type} `{KeyOrder K}.
Variable g : K * V -> K * W.
Hypothesis g_key : forall kv, (g kv).1 = kv.1.

Lemma insert_item_fmap (kv : K * V) (d : list (K * V)) :
  insert_item (g kv) (g <$> d) = g <$> insert_item kv d.
Proof.
  induction d as [|kv' d IH]; [reflexivity|].
  cbn [fmap list_fmap insert_item]. rewrite !g_key.
  destruct (key_ltb kv'.1 kv.1); [|reflexivity].
  cbn [fmap list_fmap] in IH |- *. now rewrite IH.
Qed.

(** A change of the values alone goes through the sorting. *)
Lemma sorted_items_fmap (d : list (K * V)) :
  sorted_items (g <$> d) = g <$> sorted_items d.
Proof.
  induction d as [|kv d IH]; [reflexivity|].
  cbn [fmap list_fmap sorted_items foldr].
  fold (sorted_items d). fold (sorted_items (g <$> d)).
  cbn [fmap list_fmap] in IH. rewrite IH. apply insert_item_fmap.
Qed.

End Fmap.

Section Order.

Context {K V : Type} `{StrictTotalKeys K}.

Lemma insert_item_in_key_order (kv : K * V) (d : list (K * V)) :
  kv.1 ∉ d.*1 -> in_key_order d -> in_key_order (insert_item kv d).
Proof.
  unfold in_key_order. intros Hkv Hd.
  induction Hd as [|kv' d Hd IH Hall].
  - repeat constructor.
  - cbn [insert_item]. rewrite fmap_cons, not_elem_of_cons in Hkv.
    destruct Hkv as [Hne Hkv].
    destruct (key_ltb kv'.1 kv.1) eqn:Hlt.
    + constructor; [now apply IH|].
      rewrite insert_item_Permutation. now constructor.
    + assert (Hgt : key_ltb kv.1 kv'.1 = true).
      { destruct (key_ltb_total kv.1 kv'.1) as [?|[?|?]];
          [assumption | done | congruence]. }
      constructor; [now constructor|]. constructor; [exact Hgt|].
      eapply Forall_impl; [exact Hall|]. cbn. intros y Hy.
      eapply key_ltb_trans; eassumption.
Qed.

(** With a strict total order on the keys, [sorted_items] puts the items of
    a dict in the order of their keys. *)
Lemma sorted_items_in_key_order (d : list (K * V)) :
  NoDup d.*1 -> in_key_order (sorted_items d).
Proof.
  induction d as [|kv d IH]; intros Hd.
  - constructor.
  - rewrite fmap_cons in Hd. apply NoDup_cons in Hd as [Hkv Hd].
    cbn [sorted_items foldr]. fold (sorted_items d).
    apply insert_item_in_key_order; [|now apply IH].
    now rewrite sorted_items_Permutation.
Qed.

Lemma in_key_order_unique (d d' : list (K * V)) :
  in_key_order d -> in_key_order d' -> d ≡ₚ d' -> d = d'.
Proof.
  apply StronglySorted_unique_strong. intros x y _ _ Hxy Hyx.
  pose proof (key_ltb_trans _ _ _ Hxy Hyx) as Hxx.
  now rewrite key_ltb_irrefl in Hxx.
Qed.

(** The sorted order of a dict does not depend on the order in which it was
    built. *)
Lemma sorted_items_reorder (d d' : list (K * V)) :
  NoDup d.*1 -> d ≡ₚ d' -> sorted_items d = sorted_items d'.
Proof.
  intros Hd Hperm. apply in_key_order_unique.
  - now apply sorted_items_in_key_order.
  - apply sorted_items_in_key_order. now rewrite <- Hperm.
  - now rewrite !sorted_items_Permutation.
Qed.

Lemma in_key_order_NoDup (d : list (K * V)) : in_key_order d -> NoDup d.*1.
Proof.
  unfold in_key_order. induction 1 as [|kv d Hd IH Hall]; [constructor|].
  rewrite fmap_cons. apply NoDup_cons. split; [|exact IH].
  intros Hin. apply list_elem_of_fmap in Hin as (kv' & Heq & Hin').
  rewrite Forall_forall in Hall. specialize (Hall kv' Hin').
  rewrite Heq, key_ltb_irrefl in Hall. discriminate.
Qed.

Lemma below_Permutation (a : K) (d d' : list (K * V)) :
  d ≡ₚ d' -> below a d ≡ₚ below a d'.
Proof. unfold below. now intros ->. Qed.

Lemma below_all (a : K) (d : list (K * V)) :
  Forall (fun y => key_ltb y.1 a = true) d -> below a d = d.
Proof.
  unfold below. induction 1 as [|y d Hy _ IH]; [reflexivity|].
  now rewrite filter_cons_True, IH.
Qed.

Lemma below_none (a : K) (d : list (K * V)) :
  Forall (fun y => key_ltb y.1 a = false) d -> below a d = [].
Proof.
  unfold below. induction 1 as [|y d Hy _ IH]; [reflexivity|].
  rewrite filter_cons_False; [exact IH | congruence].
Qed.

(** In a dict that is in the order of its keys, the items before an item
    are the items with keys below its own. *)
Lemma below_in_key_order (d : list (K * V)) (p : nat) (kv : K * V) :
  in_key_order d -> d !! p = Some kv -> below kv.1 d = take p d.
Proof.
  unfold in_key_order. intros Hd Hp.
  pose proof (take_drop_middle d p kv Hp) as Hsplit.
  rewrite <- Hsplit in Hd. rewrite <- Hsplit at 1. revert Hd.
  generalize (take p d) (drop (S p) d). clear Hp Hsplit d.
  intros before after Hd. unfold below. rewrite filter_app.
  fold (below kv.1 before). fold (below kv.1 (kv :: after)).
  rewrite below_all, below_none; [apply app_nil_r| |].
  - apply StronglySorted_app_1_r, StronglySorted_inv in Hd as [_ Hafter].
    constructor; [apply key_ltb_irrefl|].
    eapply Forall_impl; [exact Hafter|]. cbn. intros y Hy.
    destruct (key_ltb y.1 kv.1) eqn:Hback; [|reflexivity].
    pose proof (key_ltb_trans _ _ _ Hy Hback) as Hxx.
    now rewrite key_ltb_irrefl in Hxx.
  - apply Forall_forall. intros y Hy.
    apply (StronglySorted_app_1_elem_of _ _ _ y kv Hd Hy). left.
Qed.

(** The agents served before an agent are the agents of the dict with ids
    below its own, in the sorted order of their ids. *)
Lemma take_sorted_items (d : list (K * V)) (p : nat) (kv : K * V) :
  NoDup d.*1 -> sorted_items d !! p = Some kv ->
  take p (sorted_items d) = sorted_items (below kv.1 d).
Proof.
  intros Hd Hp.
  pose proof (sorted_items_in_key_order d Hd) as Hsorted.
  apply in_key_order_unique.
  - unfold in_key_order in Hsorted |- *.
    rewrite <- (take_drop p (sorted_items d)) in Hsorted.
    now apply StronglySorted_app_1_l in Hsorted.
  - apply sorted_items_in_key_order.
    apply (sublist_NoDup _ _ Hd).
    unfold below. apply fmap_sublist, sublist_filter.
  - rewrite <- (below_in_key_order _ _ _ Hsorted Hp).
    transitivity (below kv.1 d).
    + apply below_Permutation, sorted_items_Permutation.
    + symmetry. apply sorted_items_Permutation.
Qed.

(** The place of an agent in the sorted order is the number of agents of
    the dict whose ids are below its own. *)
Lemma rank_sorted_items (d : list (K * V)) (p : nat) (kv : K * V) :
  NoDup d.*1 -> sorted_items d !! p = Some kv -> p = rank kv.1 d.
Proof.
  intros Hd Hp. unfold rank.
  rewrite <- (length_sorted_items (below kv.1 d)).
  rewrite <- (take_sorted_items d p kv Hd Hp), length_take.
  apply lookup_lt_Some in Hp. lia.
Qed.

(** Items with keys that are not below [a] do not count for the items
    below [a]. *)
Lemma below_app_above (a : K) (d d' : list (K * V)) :
  Forall (fun y => key_ltb y.1 a = false) d' -> below a (d ++ d') = below a d.
Proof.
  intros Hd'. unfold below. rewrite filter_app.
  fold (below a d'). now rewrite below_none, app_nil_r.
Qed.

(** A dict built in the order of its keys is served in the order in which
    it was built. *)
Lemma sorted_items_in_order (d : list (K * V)) :
  in_key_order d -> sorted_items d = d.
Proof.
  intros Hd. apply in_key_order_unique; [|exact Hd|].
  - apply sorted_items_in_key_order. now apply in_key_order_NoDup.
  - apply sorted_items_Permutation.
Qed.

End Order.

End DictProofs.

(** ** Chains of key splits *)

Module KeyProofs.

Section Carried.

Context {Key : Type}.
Variable split_at : Key -> nat -> nat -> Key.

Lemma carried_snoc (key : Key) (widths : list nat) (n : nat) :
  Spec.carried split_at key (widths ++ [n])
  = split_at (Spec.carried split_at key widths) n 0.
Proof. unfold Spec.carried. now rewrite foldl_app. Qed.

Lemma carried_cons (key : Key) (widths : list nat) (n : nat) :
  Spec.carried split_at key (n :: widths)
  = Spec.carried split_at (split_at key n 0) widths.
Proof. reflexivity. Qed.

Lemma turn_key_S (key : Key) (p : nat) :
  Spec.turn_key split_at key (S p)
  = Spec.turn_key split_at (split_at key 2 0) p.
Proof. reflexivity. Qed.

Lemma carried_twos_S (key : Key) (p : nat) :
  Spec.carried split_at key (replicate (S p) 2)
  = split_at (Spec.carried split_at key (replicate p 2)) 2 0.
Proof. now rewrite replicate_S_end, carried_snoc. Qed.

End Carried.

(** In the free splitter the key carried along a chain is the root followed
    by one step per split, so the sub-keys handed out at different turns of a
    loop are different keys. *)
Lemma carried_path (key : Random.path) (widths : list nat) :
  Spec.carried Random.path_split key widths
  = key ++ ((fun n => (n, 0)) <$> widths).
Proof.
  revert key. induction widths as [|n widths IH]; intros key.
  - cbn. now rewrite app_nil_r.
  - rewrite carried_cons, IH. unfold Random.path_split.
    now rewrite <- app_assoc.
Qed.

Lemma turn_keys_distinct_path (key : Random.path) (p q : nat) :
  p <> q ->
  Spec.turn_key Random.path_split key p
  <> Spec.turn_key Random.path_split key q.
Proof.
  intros Hpq Heq. apply Hpq. unfold Spec.turn_key in Heq.
  rewrite !carried_path in Heq. unfold Random.path_split in Heq.
  apply (f_equal length) in Heq.
  rewrite !length_app, !length_fmap, !length_replicate in Heq. cbn in Heq.
  lia.
Qed.

End KeyProofs.

(** ** The losses *)

Module LossProofs.

Import Loss.
Local Open Scope R_scope.

Lemma primal_dsum (l : list dual) :
  primal (dsum l) = foldr Rplus 0 (primal <$> l).
Proof. induction l as [|x l IH]; simpl; [reflexivity | now rewrite IH]. Qed.

Lemma primal_mean (a : array) : primal (mean a) = Spec.mean (primals a).
Proof.
  unfold mean, Spec.mean, primals. simpl.
  now rewrite primal_dsum, length_fmap.
Qed.

Lemma primal_fmin (x y : dual) :
  primal (fmin x y) = Rmin (primal x) (primal y).
Proof.
  unfold fmin, Rmin.
  destruct (Rlt_dec _ _), (Rle_dec _ _); try reflexivity; lra.
Qed.

Lemma primal_fmax (x y : dual) :
  primal (fmax x y) = Rmax (primal x) (primal y).
Proof.
  unfold fmax, Rmax.
  destruct (Rgt_dec _ _), (Rle_dec _ _); try reflexivity; lra.
Qed.

Lemma assert_equal_shape_3 (a b c : array) :
  assert_equal_shape [a; b; c] = true <-> shape b = shape a /\ shape c = shape a.
Proof.
  simpl. rewrite !andb_true_iff, !bool_decide_eq_true. tauto.
Qed.

Lemma surrogate_pointwise (eps : R) (lp lpo g : list dual) :
  primal <$> zip_with fmin
      (zip_with dmul (dexp <$> zip_with dsub lp lpo) g)
      (zip_with dmul
         ((fun x => clip x (1 - eps) (1 + eps)) <$>
            (dexp <$> zip_with dsub lp lpo)) g)
  = zip_with (fun l oa => Spec.surrogate eps l oa.1 oa.2)
      (primal <$> lp) (zip (primal <$> lpo) (primal <$> g)).
Proof.
  revert lpo g. induction lp as [|x lp IH]; intros [|y lpo] [|z g];
    try reflexivity.
  cbn [zip_with fmap list_fmap]. simpl zip_with. rewrite <- IH.
  f_equal. now rewrite primal_fmin.
Qed.

Lemma kl_pointwise (lp lpo : list dual) :
  primal <$> zip_with dsub
      ((fun x => dsub x (const 1)) <$> (dexp <$> zip_with dsub lp lpo))
      (zip_with dsub lp lpo)
  = zip_with (fun l o => (exp (l - o) - 1) - (l - o))
      (primal <$> lp) (primal <$> lpo).
Proof.
  revert lpo. induction lp as [|x lp IH]; intros [|y lpo]; try reflexivity.
  simpl. now rewrite <- IH.
Qed.

Lemma value_pointwise (eps : R) (v t vo : list dual) :
  primal <$> zip_with fmax
      (dsquare <$> zip_with dsub v t)
      (dsquare <$> zip_with dsub
         (zip_with dadd
            ((fun x => clip x (- eps) eps) <$> zip_with dsub v vo) vo) t)
  = zip_with (fun x to =>
                Rmax ((x - to.1) ^ 2)
                     ((to.2 + Spec.clip (x - to.2) (- eps) eps - to.1) ^ 2))
      (primal <$> v) (zip (primal <$> t) (primal <$> vo)).
Proof.
  revert t vo. induction v as [|x v IH]; intros [|y t] [|z vo];
    try reflexivity.
  simpl. rewrite <- IH. f_equal.
  rewrite primal_fmax. simpl. unfold Spec.clip.
  f_equal; ring.
Qed.


Section Losses.

Variable categorical_entropy : array -> array.

Lemma policy_term_primal (log_probs log_probs_old gaes : array) (clip_eps : R) :
  primal (dneg (mean (map2 fmin
            (map2 dmul (map1 dexp (map2 dsub log_probs log_probs_old)) gaes)
            (map2 dmul
               (map1 (fun x => clip x (1 - clip_eps) (1 + clip_eps))
                  (map1 dexp (map2 dsub log_probs log_probs_old))) gaes))))
  = Spec.policy_loss (primals log_probs) (primals log_probs_old)
      (primals gaes) clip_eps.
Proof.
  cbn [dneg primal]. rewrite primal_mean. unfold Spec.policy_loss.
  f_equal. f_equal. apply surrogate_pointwise.
Qed.

(** C3.  On inputs of equal shape the policy loss returns
    [policy_loss + c * entropy_loss] with the specification's formulas for the
    two terms, and diagnostics made of the policy loss, the entropy per step
    and the KL estimate; the KL estimate has the value of the formula and no
    tangent, whatever tangents the inputs carry. *)
Theorem policy_loss_formula
    (logits log_probs log_probs_old gaes : array) (clip_eps entropy_coef : R) :
  shape log_probs_old = shape log_probs ->
  shape gaes = shape log_probs ->
  exists total infos,
    loss_policy_ppo_discrete categorical_entropy logits log_probs log_probs_old
      gaes clip_eps entropy_coef = inr (total, infos)
    /\ primal total
       = Spec.policy_loss (primals log_probs) (primals log_probs_old)
           (primals gaes) clip_eps
         + entropy_coef * Spec.entropy_loss (primals (categorical_entropy logits))
    /\ primal (loss_policy infos)
       = Spec.policy_loss (primals log_probs) (primals log_probs_old)
           (primals gaes) clip_eps
    /\ entropy infos = categorical_entropy logits
    /\ primal (kl_divergence infos)
       = Spec.kl_estimate (primals log_probs) (primals log_probs_old)
    /\ tangent (kl_divergence infos) = 0.
Proof.
  intros Hold Hgaes. unfold loss_policy_ppo_discrete.
  assert (Hshape : assert_equal_shape [log_probs; log_probs_old; gaes] = true)
    by (apply assert_equal_shape_3; auto).
  rewrite Hshape. cbn [negb].
  eexists _, _. split; [reflexivity|].
  repeat split.
  - cbn [dadd dmul const primal]. rewrite policy_term_primal.
    cbn [dneg primal]. now rewrite primal_mean.
  - apply policy_term_primal.
  - cbn [kl_divergence stop_gradient primal]. rewrite primal_mean.
    unfold Spec.kl_estimate. f_equal. apply kl_pointwise.
Qed.

Lemma surrogate_ratio_one (eps l a : R) :
  0 <= eps -> Spec.surrogate eps l l a = a.
Proof.
  intros Heps. unfold Spec.surrogate, Spec.clip.
  replace (l - l) with 0 by ring. rewrite exp_0.
  rewrite (Rmax_right (1 - eps) 1) by lra.
  rewrite (Rmin_right (1 + eps) 1) by lra.
  rewrite Rmin_left by lra. ring.
Qed.

Lemma surrogates_ratio_one (eps : R) (ls gs : list R) :
  0 <= eps -> length gs = length ls ->
  zip_with (fun l oa => Spec.surrogate eps l oa.1 oa.2) ls (zip ls gs) = gs.
Proof.
  intros Heps. revert gs.
  induction ls as [|l ls IH]; intros [|g gs] Hlen; try discriminate;
    [reflexivity|].
  simpl. rewrite surrogate_ratio_one by assumption.
  f_equal. apply IH. simpl in Hlen. lia.
Qed.

(** C7.  When [log_probs] and [log_probs_old] hold the same numbers, the
    policy-loss term of the diagnostics is [-mean(advantages)], for a clip
    radius that is not negative. *)
Theorem policy_loss_ratio_one
    (logits log_probs log_probs_old gaes : array) (clip_eps entropy_coef : R) :
  well_shaped log_probs -> well_shaped gaes ->
  shape log_probs_old = shape log_probs ->
  shape gaes = shape log_probs ->
  primals log_probs_old = primals log_probs ->
  0 <= clip_eps ->
  exists total infos,
    loss_policy_ppo_discrete categorical_entropy logits log_probs log_probs_old
      gaes clip_eps entropy_coef = inr (total, infos)
    /\ primal (loss_policy infos) = - Spec.mean (primals gaes).
Proof.
  intros Hlp Hg Hold Hgaes Hsame Heps. unfold loss_policy_ppo_discrete.
  assert (Hshape : assert_equal_shape [log_probs; log_probs_old; gaes] = true)
    by (apply assert_equal_shape_3; auto).
  rewrite Hshape. cbn [negb].
  eexists _, _. split; [reflexivity|]. cbn [loss_policy].
  rewrite policy_term_primal. unfold Spec.policy_loss. rewrite Hsame.
  rewrite surrogates_ratio_one; [reflexivity | exact Heps |].
  unfold primals. rewrite !length_fmap.
  unfold well_shaped in Hlp, Hg. rewrite Hlp, Hg. now rewrite Hgaes.
Qed.

(** C8.  When two of the three co-indexed inputs differ in shape, both loss
    functions return the shape-mismatch error and nothing else. *)
Theorem shape_mismatch_fails
    (logits x y z : array) (clip_eps entropy_coef : R) :
  shape x <> shape y \/ shape x <> shape z \/ shape y <> shape z ->
  loss_policy_ppo_discrete categorical_entropy logits x y z clip_eps
    entropy_coef = inl ShapeMismatch
  /\ loss_value_clip x y z clip_eps = inl ShapeMismatch.
Proof.
  intros Hne.
  assert (H1 : assert_equal_shape [x; y; z] = false).
  { apply not_true_is_false. rewrite assert_equal_shape_3.
    intros [Hy Hz]. destruct Hne as [H|[H|H]]; apply H; congruence. }
  assert (H2 : assert_equal_shape [x; z; y] = false).
  { apply not_true_is_false. rewrite assert_equal_shape_3.
    intros [Hz Hy]. destruct Hne as [H|[H|H]]; apply H; congruence. }
  unfold loss_policy_ppo_discrete, loss_value_clip.
  now rewrite H1, H2.
Qed.

(** C4.  On inputs of equal shape the value loss returns
    [mean(max((values - targets)^2,
              (values_old + clip(values - values_old, -eps, eps) - targets)^2))]. *)
Theorem value_loss_formula (values targets values_old : array) (clip_eps : R) :
  shape values_old = shape values ->
  shape targets = shape values ->
  exists loss infos,
    loss_value_clip values targets values_old clip_eps = inr (loss, infos)
    /\ primal loss
       = Spec.value_loss (primals values) (primals targets)
           (primals values_old) clip_eps
    /\ loss_value infos = loss.
Proof.
  intros Hold Htargets. unfold loss_value_clip.
  assert (Hshape : assert_equal_shape [values; values_old; targets] = true)
    by (apply assert_equal_shape_3; auto).
  rewrite Hshape. cbn [negb].
  eexists _, _. split; [reflexivity|]. split; [|reflexivity].
  rewrite primal_mean. unfold Spec.value_loss. f_equal.
  apply value_pointwise.
Qed.

End Losses.

Lemma policy_loss_formula_witness :
  exists total infos,
    loss_policy_ppo_discrete (fun a => a) Instances.vec_a Instances.vec_a
      Instances.vec_a Instances.vec_b (1 / 5) (1 / 100) = inr (total, infos)
    /\ tangent (kl_divergence infos) = 0.
Proof.
  destruct (policy_loss_formula (fun a => a) Instances.vec_a Instances.vec_a
              Instances.vec_a Instances.vec_b (1 / 5) (1 / 100)
              eq_refl eq_refl)
    as (total & infos & Hrun & _ & _ & _ & _ & Hkl).
  exists total, infos. split; assumption.
Defined.

Lemma value_loss_formula_witness :
  exists loss infos,
    loss_value_clip Instances.vec_a Instances.vec_b Instances.vec_a (1 / 5)
    = inr (loss, infos)
    /\ primal loss
       = Spec.value_loss (primals Instances.vec_a) (primals Instances.vec_b)
           (primals Instances.vec_a) (1 / 5).
Proof.
  destruct (value_loss_formula Instances.vec_a Instances.vec_b Instances.vec_a
              (1 / 5) eq_refl eq_refl)
    as (loss & infos & Hrun & Hloss & _).
  exists loss, infos. split; assumption.
Defined.

Lemma policy_loss_ratio_one_witness :
  exists total infos,
    loss_policy_ppo_discrete (fun a => a) Instances.vec_a Instances.vec_a
      Instances.vec_a Instances.vec_b (1 / 5) (1 / 100) = inr (total, infos)
    /\ primal (loss_policy infos) = - Spec.mean (primals Instances.vec_b).
Proof.
  apply (policy_loss_ratio_one (fun a => a) Instances.vec_a Instances.vec_a
           Instances.vec_a Instances.vec_b (1 / 5) (1 / 100));
    [reflexivity | reflexivity | reflexivity | reflexivity | reflexivity | lra].
Defined.

Lemma shape_mismatch_fails_witness :
  loss_policy_ppo_discrete (fun a => a) Instances.vec_a Instances.vec_a
    Instances.vec_short Instances.vec_b (1 / 5) (1 / 100) = inl ShapeMismatch
  /\ loss_value_clip Instances.vec_a Instances.vec_short Instances.vec_b
       (1 / 5) = inl ShapeMismatch.
Proof.
  apply shape_mismatch_fails. left. cbn. discriminate.
Defined.

End LossProofs.

(** ** GAE inputs and the update loop *)

Module IppoProofs.

Import KeyProofs.
Import Ippo.

Lemma drop_all_but_last {A : Type} (l : list A) :
  drop (length l - 1) l = option_list (last l).
Proof.
  induction l as [|x l IH]; [reflexivity|].
  destruct l as [|y l]; [reflexivity|].
  change (last (x :: y :: l)) with (last (y :: l)). rewrite <- IH.
  replace (length (x :: y :: l) - 1)%nat with (S (length (y :: l) - 1))
    by (simpl; lia).
  reflexivity.
Qed.

Section ProcessExperience.

Local Open Scope R_scope.

Context {PE PV Obs Hidden Val Gaes Targets : Type}.
Variable encoder_fn : PE -> list Obs -> list Hidden.
Variable value_fn : PV -> list Hidden -> list Val.
Variable gamma _lambda : R.
Variable normalize : bool.
Variable calculate_gaes_targets :
  list Val -> list Val -> list (list R) -> list (list R) -> R -> bool ->
  Gaes * Targets.

(** C9.  [compute_values_gaes] calls [calculate_gaes_targets] on discounts
    whose entry [t] is [gamma * (1 - done[t])] and on the rewards as they
    are, both with one trailing axis of size one, for every [t]. *)
Theorem gae_discounts_and_rewards
    (params : ParamsPolicyValue PE PV)
    (observations next_observations : list Obs) (dones rewards : list R) :
  let inputs :=
    compute_values_gaes_inputs encoder_fn value_fn gamma params observations
      next_observations dones rewards in
  compute_values_gaes encoder_fn value_fn gamma _lambda normalize
    calculate_gaes_targets params observations next_observations dones rewards
  = (let '(gaes, targets) :=
       calculate_gaes_targets inputs.1.1.1 inputs.1.1.2 inputs.1.2 inputs.2
         _lambda normalize in
     (gaes, targets, inputs.1.1.1))
  /\ length inputs.1.2 = length dones
  /\ length inputs.2 = length rewards
  /\ forall t : nat,
       inputs.1.2 !! t = (fun d => [gamma * (1 - d)]) <$> dones !! t
       /\ inputs.2 !! t = (fun r => [r]) <$> rewards !! t.
Proof.
  cbn zeta. unfold compute_values_gaes, compute_values_gaes_inputs.
  cbn [fst snd]. repeat split.
  - now rewrite !length_fmap.
  - now rewrite length_fmap.
  - rewrite !list_lookup_fmap. now destruct (dones !! t).
  - now rewrite list_lookup_fmap.
Qed.

Section RowWise.

Variable encoder : PE -> Obs -> Hidden.
Variable value : PV -> Hidden -> Val.

(** C10.  [compute_values_gaes] calls [calculate_gaes_targets] with the array
    [next_values] as its second argument, and returns what that call
    returns.  With networks that act on every row by itself, [next_values]
    has [T] entries, entry [t] is the value of [observations[t+1]] for
    [t < T-1] and the value of the last next-observation for [t = T-1]; the
    other next-observations do not reach the result. *)
Theorem next_values_shift_observations
    (params : ParamsPolicyValue PE PV)
    (observations next_observations : list Obs) (dones rewards : list R) :
  (forall pe xs, encoder_fn pe xs = encoder pe <$> xs) ->
  (forall pv hs, value_fn pv hs = value pv <$> hs) ->
  length next_observations = length observations ->
  let critic o :=
    value (params_value params) (encoder (params_encoder params) o) in
  let inputs :=
    compute_values_gaes_inputs encoder_fn value_fn gamma params observations
      next_observations dones rewards in
  let next_values := inputs.1.1.2 in
  compute_values_gaes encoder_fn value_fn gamma _lambda normalize
    calculate_gaes_targets params observations next_observations dones rewards
  = (let '(gaes, targets) :=
       calculate_gaes_targets inputs.1.1.1 next_values inputs.1.2 inputs.2
         _lambda normalize in
     (gaes, targets, inputs.1.1.1))
  /\ length next_values = length observations
  /\ (forall t : nat, (S t < length observations)%nat ->
        next_values !! t = critic <$> observations !! S t)
  /\ next_values !! (length observations - 1)%nat
     = critic <$> last next_observations
  /\ forall next_observations' : list Obs,
       last next_observations' = last next_observations ->
       compute_values_gaes encoder_fn value_fn gamma _lambda normalize
         calculate_gaes_targets params observations next_observations'
         dones rewards
       = compute_values_gaes encoder_fn value_fn gamma _lambda normalize
           calculate_gaes_targets params observations next_observations
           dones rewards.
Proof.
  intros Henc Hval Hlen critic inputs next_values.
  assert (Hnv : next_values
                = drop 1 (critic <$> (observations
                                        ++ option_list (last next_observations)))).
  { unfold next_values, inputs, compute_values_gaes_inputs. cbn [fst snd].
    rewrite Henc, Hval, drop_all_but_last, <- list_fmap_compose.
    reflexivity. }
  split; [|split; [|split; [|split]]].
  - reflexivity.
  - rewrite Hnv, length_drop, length_fmap, length_app.
    destruct next_observations as [|o l _] using rev_ind.
    + destruct observations; [reflexivity | discriminate].
    + rewrite last_snoc. cbn. lia.
  - intros t Ht. rewrite Hnv, lookup_drop, list_lookup_fmap.
    rewrite lookup_app_l by lia. reflexivity.
  - rewrite Hnv, lookup_drop, list_lookup_fmap.
    destruct next_observations as [|o l] eqn:E using rev_ind.
    + destruct observations; [reflexivity | discriminate].
    + rewrite last_snoc. rewrite length_app in Hlen. cbn in Hlen.
      rewrite lookup_app_r by lia.
      replace (1 + (length observations - 1) - length observations)%nat
        with 0%nat by lia.
      reflexivity.
  - intros next_observations' Hlast.
    unfold compute_values_gaes, compute_values_gaes_inputs.
    now rewrite !drop_all_but_last, Hlast.
Qed.

End RowWise.

End ProcessExperience.

Local Close Scope R_scope.


Section Update.

Context {Key State ParamsT Sample Experiences V : Type}.
Variable split_at : Key -> nat -> nat -> Key.
Variable state_params : State -> ParamsT.
Variable process_experience_fn : ParamsT -> Sample -> Experiences.
Variable update_step_fn :
  State -> Key -> Experiences -> State * R * gmap string V.
Variable num_epochs : Z.
Variable scalar : R -> V.

Lemma epochs_from (experiences : Experiences) (state : State) (key : Key)
    (n i : nat) (loss : R) (info : option (gmap string V)) :
  epochs split_at update_step_fn n experiences
    (Spec.state_at split_at update_step_fn experiences state key i)
    (Spec.carried split_at key (replicate i 2)) loss info
  = (Spec.state_at split_at update_step_fn experiences state key (i + n),
     (loss + foldr Rplus 0
               (Spec.loss_at split_at update_step_fn experiences state key
                  <$> seq i n))%R,
     match n with
     | O => info
     | S n' =>
         Some (Spec.info_at split_at update_step_fn experiences state key
                 (i + n'))
     end).
Proof.
  revert i loss info. induction n as [|n IH]; intros i loss info.
  - cbn. rewrite Nat.add_0_r. do 2 f_equal. lra.
  - cbn [epochs]. rewrite <- carried_twos_S.
    change (split_at (Spec.carried split_at key (replicate i 2)) 2 1)
      with (Spec.turn_key split_at key i).
    destruct (update_step_fn
                (Spec.state_at split_at update_step_fn experiences state key i)
                (Spec.turn_key split_at key i) experiences)
      as [[state' l] info'] eqn:Hstep.
    assert (Hs : state'
                 = Spec.state_at split_at update_step_fn experiences state key
                     (S i)) by (cbn; now rewrite Hstep).
    assert (Hl : l = Spec.loss_at split_at update_step_fn experiences state
                       key i) by (unfold Spec.loss_at; now rewrite Hstep).
    assert (Hi : info' = Spec.info_at split_at update_step_fn experiences state
                           key i) by (unfold Spec.info_at; now rewrite Hstep).
    rewrite Hs, IH. replace (S i + n) with (i + S n) by lia.
    f_equal; [f_equal|].
    + cbn [seq fmap list_fmap foldr]. rewrite Hl. lra.
    + destruct n as [|n'].
      * now rewrite Hi, Nat.add_0_r.
      * do 2 f_equal. lia.
Qed.

(** C5.  With at least one epoch, [update] runs the gradient step
    [num_epochs] times in a chain, step [i] on the state that step [i-1]
    returned and with the sub-key split off for epoch [i]; it returns the
    state of the last step and the diagnostics of the last step with
    ["total_loss"] set to the sum of the losses of the steps divided by
    [num_epochs]. *)
Theorem update_runs_num_epochs_steps
    (state : State) (key : Key) (sample : Sample) :
  (0 < num_epochs)%Z ->
  let experiences := process_experience_fn (state_params state) sample in
  let n := Z.to_nat num_epochs in
  update split_at state_params process_experience_fn update_step_fn
    num_epochs scalar state key sample
  = inr (Spec.state_at split_at update_step_fn experiences state key n,
         <["total_loss"%string :=
             scalar (Spec.loss_sum split_at update_step_fn experiences state
                       key n / IZR num_epochs)%R]>
           (Spec.info_at split_at update_step_fn experiences state key
              (n - 1))).
Proof.
  intros Hpos experiences n. unfold update. fold experiences. fold n.
  pose proof (epochs_from experiences state key n 0 0%R None) as Hrun.
  cbn [Spec.state_at replicate Spec.carried foldl] in Hrun.
  rewrite Hrun. cbn [Nat.add].
  rewrite decide_False by lia.
  destruct n as [|n'] eqn:Hn; [lia|].
  unfold Spec.loss_sum. rewrite Rplus_0_l.
  replace (S n' - 1) with n' by lia. reflexivity.
Qed.

End Update.

(** Observations [1; 2; 3] with recorded next observations [7; 8; 9], and
    an estimator that returns the next values it is given: the critic
    ([2 * (o + 1)]) is read at observations 2 and 3 and at the last next
    observation 9, not at 7 and 8. *)
Lemma next_values_shift_observations_witness :
  (compute_values_gaes Instances.shift_rows Instances.double_rows 1%R 1%R false
     Instances.echo_next_values (Params tt tt) [1; 2; 3] [7; 8; 9]
     [0; 0; 1]%R [1; 0; 2]%R).1.1
  = [6; 8; 20]
  /\ (compute_values_gaes_inputs Instances.shift_rows Instances.double_rows 1%R
        (Params tt tt) [1; 2; 3] [7; 8; 9] [0; 0; 1]%R [1; 0; 2]%R).1.1.2 !! 0
     = Some 6
  /\ (compute_values_gaes_inputs Instances.shift_rows Instances.double_rows 1%R
        (Params tt tt) [1; 2; 3] [7; 8; 9] [0; 0; 1]%R [1; 0; 2]%R).1.1.2 !! 2
     = Some 20.
Proof.
  destruct (next_values_shift_observations
              Instances.shift_rows Instances.double_rows 1%R 1%R false
              Instances.echo_next_values
              (fun _ o => S o) (fun _ h => 2 * h)
              (Params tt tt) [1; 2; 3] [7; 8; 9] [0; 0; 1]%R [1; 0; 2]%R
              (fun _ _ => eq_refl) (fun _ _ => eq_refl) eq_refl)
    as (Hcall & _ & Hshift & Hlast & _).
  split; [|split].
  - rewrite Hcall. reflexivity.
  - exact (Hshift 0 ltac:(cbn; lia)).
  - exact Hlast.
Defined.

Lemma update_runs_num_epochs_steps_witness :
  exists info,
    update Random.path_split (fun s : nat => s) (fun _ _ => tt)
      Instances.counting_step 2%Z (fun r => r) 0 [] tt
    = inr (2, info).
Proof.
  eexists.
  apply (update_runs_num_epochs_steps Random.path_split (fun s : nat => s)
           (fun _ _ => tt) Instances.counting_step 2%Z (fun r => r) 0 [] tt).
  lia.
Defined.

End IppoProofs.

(** ** The batching lifts *)

Module FactoryProofs.

Import KeyProofs DictProofs.
Import Factory.

Section Arrays.

Context {X : Type}.
Implicit Types (m : list (list X)) (xs : list (list X)).

Lemma entry_Some_row m t row i :
  m !! t = Some row -> entry m t i = row !! i.
Proof. unfold entry. now intros ->. Qed.

Lemma entry_None_row m t i : m !! t = None -> entry m t i = None.
Proof. unfold entry. now intros ->. Qed.

Lemma lookup_concat_uniform m n t i :
  Forall (fun row => length row = n) m -> i < n ->
  concat m !! (t * n + i) = entry m t i.
Proof.
  intros Hm Hi. revert t.
  induction Hm as [|row m Hrow Hm IH]; intros t.
  - now rewrite entry_None_row.
  - destruct t as [|t]; cbn [concat].
    + rewrite lookup_app_l by lia. reflexivity.
    + rewrite lookup_app_r by lia.
      replace (S t * n + i - length row) with (t * n + i) by lia.
      apply IH.
Qed.

Lemma length_concat_uniform m n :
  Forall (fun row => length row = n) m -> length (concat m) = length m * n.
Proof.
  induction 1 as [|row m Hrow Hm IH]; [reflexivity|].
  cbn [concat length]. rewrite length_app. lia.
Qed.

(** [stack1] on arrays of one length: the result is their transpose. *)
Lemma stack1_uniform xs d :
  xs <> [] -> Forall (fun x => length x = d) xs ->
  exists out,
    stack1 xs = Some out
    /\ length out = d
    /\ Forall (fun row => length row = length xs) out
    /\ forall t i, entry out t i = entry xs i t.
Proof.
  intros Hne Hxs. induction Hxs as [|x xs Hx Hxs IH]; [done|].
  destruct xs as [|x' xs].
  - exists ((fun y => [y]) <$> x). repeat split.
    + now rewrite length_fmap.
    + apply Forall_fmap, Forall_true. done.
    + intros t i. unfold entry. rewrite list_lookup_fmap.
      destruct i as [|i]; cbn; destruct (x !! t); try reflexivity.
  - destruct IH as (out & Hout & Hlen & Hrows & Hentry); [done|].
    cbn [stack1] in Hout |- *. rewrite Hout.
    rewrite decide_True by lia.
    exists (zip_with cons x out). repeat split.
    + rewrite length_zip_with. lia.
    + clear -Hrows. revert x.
      induction Hrows as [|row out Hrow Hrows IH]; intros [|y x]; cbn;
        constructor; cbn in *; auto.
    + intros t i. unfold entry at 1. rewrite lookup_zip_with.
      destruct i as [|i].
      * unfold entry. cbn [lookup list_lookup]. cbn.
        destruct (x !! t) eqn:Hxt; cbn; [|reflexivity].
        destruct (out !! t) eqn:Hot; cbn; [reflexivity|].
        apply lookup_lt_Some in Hxt. apply lookup_ge_None in Hot. lia.
      * change (entry (x :: x' :: xs) (S i) t) with (entry (x' :: xs) i t).
        rewrite <- Hentry. unfold entry.
        destruct (x !! t) eqn:Hxt; cbn.
        -- destruct (out !! t); reflexivity.
        -- apply lookup_ge_None in Hxt.
           rewrite (proj2 (lookup_ge_None out t)) by lia. reflexivity.
Qed.

(** [concatenate1] on arrays with [d] rows of length [n] each. *)
Lemma concatenate1_uniform (ms : list (list (list X))) d n :
  ms <> [] ->
  Forall (fun m => length m = d /\ Forall (fun row => length row = n) m) ms ->
  exists out,
    concatenate1 ms = Some out
    /\ length out = d
    /\ Forall (fun row => length row = length ms * n) out
    /\ forall t a e, e < n ->
         entry out t (a * n + e) = ms !! a ≫= fun m => entry m t e.
Proof.
  intros Hne Hms. induction Hms as [|m ms [Hm Hrows] Hms IH]; [done|].
  destruct ms as [|m' ms].
  - exists m. repeat split; auto.
    + cbn. eapply Forall_impl; [exact Hrows|]. cbn. lia.
    + intros t a e He. destruct a as [|a]; [reflexivity|].
      cbn. unfold entry. destruct (m !! t) as [row|] eqn:Hrow; cbn; [|done].
      apply lookup_ge_None.
      rewrite (Forall_lookup_1 _ _ _ _ Hrows Hrow). lia.
  - destruct IH as (out & Hout & Hlen & Hwide & Hentry); [done|].
    cbn [concatenate1] in Hout |- *. rewrite Hout.
    rewrite decide_True by lia.
    exists (zip_with app m out). repeat split.
    + rewrite length_zip_with. lia.
    + apply Forall_lookup_2. intros t row Hrow.
      apply lookup_zip_with_Some in Hrow as (r1 & r2 & -> & Hr1 & Hr2).
      rewrite length_app.
      rewrite (Forall_lookup_1 _ _ _ _ Hrows Hr1).
      rewrite (Forall_lookup_1 _ _ _ _ Hwide Hr2). cbn [length]. nia.
    + intros t a e He. unfold entry at 1. rewrite lookup_zip_with.
      destruct (m !! t) as [r1|] eqn:Hr1; cbn.
      * destruct (out !! t) as [r2|] eqn:Hr2; cbn.
        2:{ apply lookup_lt_Some in Hr1. apply lookup_ge_None in Hr2. lia. }
        pose proof (Forall_lookup_1 _ _ _ _ Hrows Hr1) as Hl1. cbn beta in Hl1.
        destruct a as [|a].
        -- rewrite lookup_app_l by (cbn; lia). cbn.
           unfold entry. now rewrite Hr1.
        -- rewrite lookup_app_r by lia.
           replace (S a * n + e - length r1) with (a * n + e) by lia.
           change ((m :: m' :: ms) !! S a) with ((m' :: ms) !! a).
           rewrite <- Hentry by exact He. unfold entry. now rewrite Hr2.
      * apply lookup_ge_None in Hr1.
        destruct a as [|a]; cbn.
        -- unfold entry. now rewrite (proj2 (lookup_ge_None m t)) by lia.
        -- change ((m :: m' :: ms) !! S a) with ((m' :: ms) !! a).
           rewrite <- Hentry by exact He.
           now rewrite entry_None_row by (apply lookup_ge_None; lia).
Qed.

End Arrays.


Lemma mapM_pointwise {A B : Type} (f : A -> option B) (l : list A)
    (P : nat -> B -> Prop) :
  (forall i x, l !! i = Some x -> exists y, f x = Some y /\ P i y) ->
  exists k, mapM f l = Some k /\ length k = length l
            /\ forall i y, k !! i = Some y -> P i y.
Proof.
  revert P. induction l as [|x l IH]; intros P Hl.
  - exists []. repeat split. intros i y Hy. now rewrite lookup_nil in Hy.
  - destruct (Hl 0 x eq_refl) as (y & Hy & HP).
    destruct (IH (fun i => P (S i))) as (k & Hk & Hlen & HPk).
    { intros i x' Hx'. apply (Hl (S i) x' Hx'). }
    exists (y :: k). cbn. rewrite Hy, Hk. cbn. repeat split.
    + now rewrite Hlen.
    + intros [|i] y' Hy'; cbn in Hy'; [by simplify_eq | by apply HPk].
Qed.

Lemma length_column {X : Type} (x : array2 X) (e : nat) :
  rectangular x -> e < shape1 x -> length (column e x) = shape0 x.
Proof.
  unfold rectangular, column, shape0. intros Hrect He.
  induction Hrect as [|r rs Hr Hrs IH]; [reflexivity|].
  cbn. destruct (r !! e) eqn:Hre; cbn.
  - now rewrite IH.
  - apply lookup_ge_None in Hre. lia.
Qed.

Section ProcessExperience.

Context {Key Agent State Tr Y Leaf : Type}.
Variable split_at : Key -> nat -> nat -> Key.
Variable process_experience_fn : State -> Key -> list Tr -> Leaf -> list Y.

Lemma drop_1_split (key : Key) (n : nat) :
  drop 1 (Random.split split_at key (n + 1)) = split_at key (n + 1) <$> seq 1 n.
Proof. unfold Random.split. rewrite Nat.add_1_r. reflexivity. Qed.

Lemma vectorized_parallel_keys_lookup
    (experience : list (Agent * array2 Tr)) (key : Key) (p : nat) :
  vectorized_parallel_keys split_at key experience !! p
  = (fun ax =>
       (ax.1,
        split_at
          (Spec.carried split_at key
             ((fun y => shape1 y.2 + 1) <$> take p experience))
          (shape1 ax.2 + 1) <$> seq 1 (shape1 ax.2)))
    <$> experience !! p.
Proof.
  revert key p. induction experience as [|[agent x] rest IH]; intros key p.
  - reflexivity.
  - cbn [vectorized_parallel_keys]. rewrite drop_1_split.
    destruct p as [|p]; [reflexivity|].
    cbn [lookup list_lookup take fmap list_fmap].
    rewrite IH. reflexivity.
Qed.

Lemma length_vectorized_parallel_keys
    (experience : list (Agent * array2 Tr)) (key : Key) :
  length (vectorized_parallel_keys split_at key experience)
  = length experience.
Proof.
  revert key. induction experience as [|[agent x] rest IH]; intros key;
    cbn; [reflexivity | now rewrite IH].
Qed.

Lemma parallel_keys_lookup
    (experience : list (Agent * list Tr)) (key : Key) (p : nat) :
  parallel_keys split_at key experience !! p
  = (fun ax => (ax.1, Spec.turn_key split_at key p)) <$> experience !! p.
Proof.
  revert key p. induction experience as [|[agent x] rest IH]; intros key p.
  - reflexivity.
  - destruct p as [|p]; [reflexivity|].
    cbn [parallel_keys lookup list_lookup]. rewrite IH.
    now rewrite turn_key_S.
Qed.

Lemma widths_uniform (experience : list (Agent * array2 Tr)) (E a : nat) :
  Forall (fun ax => shape1 ax.2 = E) experience ->
  a <= length experience ->
  (fun y : Agent * array2 Tr => shape1 y.2 + 1) <$> take a experience
  = replicate a (E + 1).
Proof.
  intros HE. revert a. induction HE as [|ax rest Hax HE IH]; intros a Ha.
  - cbn in Ha. replace a with 0 by lia. reflexivity.
  - destruct a as [|a]; [reflexivity|]. cbn in Ha |- *.
    rewrite Hax, IH by lia. reflexivity.
Qed.

Lemma vmap_process_uniform (state : State) (K : Key) (x : array2 Tr)
    (j : Leaf) (T E d0 : nat) :
  0 < E -> shape1 x = E -> shape0 x = T -> rectangular x ->
  (forall k sl, length sl = T ->
     length (process_experience_fn state k sl j) = d0) ->
  exists m,
    vmap_process process_experience_fn state
      (split_at K (E + 1) <$> seq 1 E) x j = Some m
    /\ length m = d0
    /\ Forall (fun row => length row = E) m
    /\ forall t e, e < E ->
         entry m t e
         = process_experience_fn state (split_at K (E + 1) (S e))
             (column e x) j !! t.
Proof.
  intros HE Hx1 Hx0 Hrect Hlen. unfold vmap_process. rewrite Hx1.
  rewrite <- fmap_S_seq, <- list_fmap_compose, zip_with_fmap_l, zip_with_diag.
  set (res := fun e =>
         process_experience_fn state (split_at K (E + 1) (S e))
           (column e x) j).
  destruct (stack1_uniform (res <$> seq 0 E) d0) as (m & Hm & Hd & Hw & Hent).
  - destruct E; [lia | discriminate].
  - apply Forall_fmap, Forall_forall. intros e He%elem_of_seq. cbn.
    apply Hlen. rewrite length_column by (trivial; lia). exact Hx0.
  - exists m. repeat split; try assumption.
    + now rewrite length_fmap, length_seq in Hw.
    + intros t e He. rewrite Hent. unfold entry.
      rewrite list_lookup_fmap, lookup_seq_lt by exact He. reflexivity.
Qed.

(** [jax.vmap] of the wrapped function over the columns, under keys given
    by the index of the column. *)
Lemma vmap_process_fmap_keys (state : State) (kf : nat -> Key) (x : array2 Tr)
    (j : Leaf) :
  vmap_process process_experience_fn state (kf <$> seq 0 (shape1 x)) x j
  = stack1 ((fun e => process_experience_fn state (kf e) (column e x) j)
            <$> seq 0 (shape1 x)).
Proof.
  unfold vmap_process. now rewrite zip_with_fmap_l, zip_with_diag.
Qed.

(** [outputs] of the branch [parallel and vectorized], agent by agent. *)
Lemma outputs_vectorized_parallel_by_rank (state : State) (key : Key)
    (experience : list (Agent * array2 Tr)) :
  outputs_vectorized_parallel split_at process_experience_fn state key
    experience
  = imap (fun p ax =>
            vmap_process process_experience_fn state
              (Spec.env_key split_at key
                 ((fun y => shape1 y.2) <$> take p experience) (shape1 ax.2)
               <$> seq 0 (shape1 ax.2))
              ax.2)
         experience.
Proof.
  unfold outputs_vectorized_parallel. apply list_eq. intros p.
  rewrite lookup_zip_with, vectorized_parallel_keys_lookup, list_lookup_imap.
  destruct (experience !! p) as [[agent x]|]; [|reflexivity].
  cbn [fmap option_fmap option_map mbind option_bind fst snd].
  do 2 f_equal. unfold Spec.env_key.
  rewrite <- fmap_S_seq, <- !list_fmap_compose. reflexivity.
Qed.

(** [outputs] of the branch [parallel], agent by agent. *)
Lemma outputs_parallel_only_by_rank (state : State) (key : Key)
    (experience : list (Agent * list Tr)) :
  outputs_parallel_only split_at process_experience_fn state key experience
  = imap (fun p ax j =>
            Some (process_experience_fn state (Spec.turn_key split_at key p)
                    ax.2 j))
         experience.
Proof.
  unfold outputs_parallel_only. apply list_eq. intros p.
  rewrite lookup_zip_with, parallel_keys_lookup, list_lookup_imap.
  destruct (experience !! p) as [[agent x]|]; reflexivity.
Qed.

Lemma mapM_imap_leaf {A B : Type} (f : nat -> A -> Leaf -> option B)
    (l : list A) (j : Leaf) :
  mapM (fun o : Leaf -> option B => o j) (imap f l)
  = mapM (fun o : option B => o) (imap (fun p a => f p a j) l).
Proof.
  revert f. induction l as [|a l IH]; intros f; [reflexivity|].
  cbn [imap mapM]. now rewrite IH.
Qed.

Lemma mapM_imap_Some {A B : Type} (f : nat -> A -> B) (l : list A) :
  mapM (fun o : option B => o) (imap (fun p a => Some (f p a)) l)
  = Some (imap f l).
Proof.
  revert f. induction l as [|a l IH]; intros f; [reflexivity|].
  cbn [imap mapM]. cbn. unfold compose. now rewrite IH.
Qed.

End ProcessExperience.


Section Flatten.

Context {Key Agent State Tr Y Leaf : Type} `{Dict.KeyOrder Agent}.
Variable split_at : Key -> nat -> nat -> Key.
Variable process_experience_fn : State -> Key -> list Tr -> Leaf -> list Y.

(** What the branch [parallel and vectorized] makes of the dict that its
    loop walks. *)
Lemma flattened_outputs_vectorized_parallel
    (state : State) (key : Key) (experience : list (Agent * array2 Tr))
    (j : Leaf) (T E d0 : nat) :
  experience <> [] -> 0 < E ->
  Forall (fun ax => shape1 ax.2 = E /\ shape0 ax.2 = T /\ rectangular ax.2)
         experience ->
  (forall k sl, length sl = T ->
     length (process_experience_fn state k sl j) = d0) ->
  exists flat,
    tree_map_outputs concat_and_reshape
      (outputs_vectorized_parallel split_at process_experience_fn state key
         experience) j = Some flat
    /\ length flat = d0 * (length experience * E)
    /\ forall t a e agent x,
         experience !! a = Some (agent, x) -> e < E ->
         flat !! (t * (length experience * E) + a * E + e)
         = process_experience_fn state
             (split_at
                (Spec.carried split_at key (replicate a (E + 1)))
                (E + 1) (S e))
             (column e x) j !! t.
Proof.
  intros Hne HE Hexp Hlen.
  set (A := length experience).
  set (res := fun a e (x : array2 Tr) =>
         process_experience_fn state
           (split_at (Spec.carried split_at key (replicate a (E + 1)))
              (E + 1) (S e))
           (column e x) j).
  unfold outputs_vectorized_parallel, tree_map_outputs.
  set (outputs := zip_with _ _ _).
  destruct (mapM_pointwise (fun o => o j) outputs
              (fun a m =>
                 length m = d0 /\ Forall (fun row => length row = E) m
                 /\ forall agent x, experience !! a = Some (agent, x) ->
                      forall t e, e < E -> entry m t e = res a e x !! t))
    as (ms & Hms & Hmslen & Hmsprop).
  { intros a o Ho. unfold outputs in Ho.
    apply lookup_zip_with_Some in Ho as (k & [agent x] & -> & Hk & Hx).
    rewrite vectorized_parallel_keys_lookup, Hx in Hk. cbn in Hk.
    injection Hk as <-. cbn [fst snd].
    pose proof (Forall_lookup_1 _ _ _ _ Hexp Hx) as (Hx1 & Hx0 & Hrect).
    cbn [snd] in Hx1, Hx0, Hrect.
    rewrite (widths_uniform experience E a).
    2:{ eapply Forall_impl; [exact Hexp|]. cbn. tauto. }
    2:{ apply lookup_lt_Some in Hx. lia. }
    rewrite Hx1.
    destruct (vmap_process_uniform split_at process_experience_fn state
                (Spec.carried split_at key (replicate a (E + 1))) x j T E d0
                HE Hx1 Hx0 Hrect Hlen) as (m & Hm & Hd & Hw & Hent).
    exists m. repeat split; try assumption.
    intros agent' x' Heq. rewrite Hx in Heq. injection Heq as <- <-.
    exact Hent. }
  assert (HlenA : length ms = A).
  { rewrite Hmslen. unfold outputs.
    rewrite length_zip_with, length_vectorized_parallel_keys. lia. }
  rewrite Hms. cbn [mbind option_bind]. unfold concat_and_reshape.
  destruct (concatenate1_uniform ms d0 E) as (out & Hout & Hd & Hw & Hent).
  { destruct ms; [|discriminate]. destruct experience; [done | discriminate]. }
  { apply Forall_lookup_2. intros a m Hm.
    destruct (Hmsprop a m Hm) as (? & ? & _). split; assumption. }
  rewrite Hout. cbn [fmap option_fmap option_map]. exists (concat out).
  rewrite HlenA in Hw. repeat split.
  - unfold reshape_merge. rewrite (length_concat_uniform out (A * E)) by exact Hw. now rewrite Hd.
  - intros t a e agent x Hx He.
    assert (Ha : a < A) by (apply lookup_lt_Some in Hx; exact Hx).
    unfold reshape_merge.
    rewrite <- Nat.add_assoc, (lookup_concat_uniform out (A * E)); [|exact Hw|nia].
    rewrite Hent by exact He.
    destruct (ms !! a) as [m|] eqn:Hm.
    + cbn. destruct (Hmsprop a m Hm) as (_ & _ & Hres).
      now rewrite (Hres agent x Hx t e He).
    + apply lookup_ge_None in Hm. lia.
Qed.

(** C1, as the code has it.  With [A] agents that each hold [T] steps of [E]
    environments, and a single-instance function whose result has [d0]
    entries along its leading axis, every leaf of the flattened output has
    [d0 * (A * E)] entries, and the entry at [t * (A * E) + a * E + e] is
    entry [t] of the single-instance result on the column [e] of agent [a],
    the agents being counted in the sorted order of their ids, with the
    sub-key split off for that agent and column. *)
Theorem flattened_vectorized_parallel
    (state : State) (key : Key) (experience : list (Agent * array2 Tr))
    (j : Leaf) (T E d0 : nat) :
  experience <> [] -> 0 < E ->
  Forall (fun ax => shape1 ax.2 = E /\ shape0 ax.2 = T /\ rectangular ax.2)
         experience ->
  (forall k sl, length sl = T ->
     length (process_experience_fn state k sl j) = d0) ->
  exists flat,
    fn_vectorized_parallel split_at process_experience_fn state key
      experience j = Some flat
    /\ length flat = d0 * (length experience * E)
    /\ forall t a e agent x,
         Dict.sorted_items experience !! a = Some (agent, x) -> e < E ->
         flat !! (t * (length experience * E) + a * E + e)
         = process_experience_fn state
             (split_at
                (Spec.carried split_at key (replicate a (E + 1)))
                (E + 1) (S e))
             (column e x) j !! t.
Proof.
  intros Hne HE Hexp Hlen.
  destruct (flattened_outputs_vectorized_parallel state key
              (Dict.sorted_items experience) j T E d0)
    as (flat & Hrun & Hflat & Hent).
  - now rewrite sorted_items_nil.
  - exact HE.
  - now apply Forall_sorted_items.
  - exact Hlen.
  - rewrite length_sorted_items in Hflat, Hent.
    exists flat. split; [exact Hrun|]. split; [exact Hflat | exact Hent].
Qed.

End Flatten.


Section Explore.

Context {Key Agent ParamsT Obs Action LogProb : Type}.
Variable split_at : Key -> nat -> nat -> Key.
Variable explore_fn : ParamsT -> Key -> Obs -> Action * LogProb.

Lemma explore_lookup (params : ParamsT) (key : Key)
    (observation : list (Agent * Obs)) (p : nat) :
  (Ippo.explore split_at explore_fn params key observation).1 !! p
  = (fun ao =>
       (ao.1, (explore_fn params (Spec.turn_key split_at key p) ao.2).1))
    <$> observation !! p
  /\ (Ippo.explore split_at explore_fn params key observation).2 !! p
     = (fun ao =>
          (ao.1, (explore_fn params (Spec.turn_key split_at key p) ao.2).2))
       <$> observation !! p.
Proof.
  revert key p. induction observation as [|[agent obs] rest IH]; intros key p.
  - split; reflexivity.
  - cbn [Ippo.explore].
    destruct (explore_fn params (split_at key 2 1) obs) as [a lp] eqn:Hfn.
    specialize (IH (split_at key 2 0)).
    destruct (Ippo.explore split_at explore_fn params (split_at key 2 0) rest)
      as [action log_prob].
    destruct p as [|p].
    + cbn. unfold Spec.turn_key. cbn. now rewrite Hfn.
    + destruct (IH p) as [IH1 IH2]. cbn [fst snd] in IH1, IH2.
      cbn [fst snd lookup list_lookup]. rewrite turn_key_S. now split.
Qed.

End Explore.

Section SubKeys.

Context {Key Agent State Tr Y Leaf ParamsT Obs Action LogProb : Type}.
Context `{Dict.StrictTotalKeys Agent}.
Variable split_at : Key -> nat -> nat -> Key.
Variable process_experience_fn : State -> Key -> list Tr -> Leaf -> list Y.
Variable explore_fn : ParamsT -> Key -> Obs -> Action * LogProb.

(** C2, as the code has it.  The jitted experience lifts serve the agents
    in the sorted order of their ids, and what they return is what comes of
    calling the wrapped function, for the agent of rank [p] there, with a
    sub-key fixed by the root key and [p]: entry 1 of the [p]-th split in two
    along the chain of entries 0 when only [parallel]; when [vectorized] too,
    for environment [e], entry [1 + e] of the split in [E + 1] of the key
    carried over the agents before it, which depends on their numbers of
    environments as well.  The rank of an agent is the number of agents of
    the dict with ids below its own, the agents before it are these agents
    in the sorted order of their ids, and agents with other ids do not count
    among them; the result does not change when the dict is built in
    another order.  [PPO.explore] is not jitted: the agent
    at position [p] of the dict as it was built gets entry 1 of the [p]-th
    split in two.  In the free splitter, different ranks or positions never
    get the same sub-key. *)
Theorem sub_keys_by_sorted_rank :
  (forall (state : State) (key : Key)
          (experience : list (Agent * array2 Tr)) (j : Leaf),
     let agents := Dict.sorted_items experience in
     fn_vectorized_parallel split_at process_experience_fn state key
       experience j
     = mapM (fun o : option (list (list Y)) => o)
         (imap (fun p ax =>
                  stack1
                    ((fun e =>
                        process_experience_fn state
                          (Spec.env_key split_at key
                             ((fun y => shape1 y.2) <$> take p agents)
                             (shape1 ax.2) e)
                          (column e ax.2) j)
                     <$> seq 0 (shape1 ax.2)))
               agents)
       ≫= concat_and_reshape)
  /\ (forall (state : State) (key : Key)
             (experience : list (Agent * list Tr)) (j : Leaf),
        let agents := Dict.sorted_items experience in
        fn_parallel_only split_at process_experience_fn state key
          experience j
        = stack_and_reshape
            (imap (fun p ax =>
                     process_experience_fn state
                       (Spec.turn_key split_at key p) ax.2 j)
                  agents))
  /\ (forall (V : Type) (experience : list (Agent * V)) (p : nat)
             (agent : Agent) (x : V),
        NoDup experience.*1 ->
        Dict.sorted_items experience !! p = Some (agent, x) ->
        p = Dict.rank agent experience
        /\ take p (Dict.sorted_items experience)
           = Dict.sorted_items (Dict.below agent experience))
  /\ (forall (V : Type) (agent : Agent) (experience more : list (Agent * V)),
        Forall (fun y => Dict.key_ltb y.1 agent = false) more ->
        Dict.below agent (experience ++ more) = Dict.below agent experience)
  /\ (forall (state : State) (key : Key)
             (experience experience' : list (Agent * array2 Tr)) (j : Leaf),
        NoDup experience.*1 -> experience ≡ₚ experience' ->
        fn_vectorized_parallel split_at process_experience_fn state key
          experience j
        = fn_vectorized_parallel split_at process_experience_fn state key
            experience' j)
  /\ (forall (state : State) (key : Key)
             (experience experience' : list (Agent * list Tr)) (j : Leaf),
        NoDup experience.*1 -> experience ≡ₚ experience' ->
        fn_parallel_only split_at process_experience_fn state key
          experience j
        = fn_parallel_only split_at process_experience_fn state key
            experience' j)
  /\ (forall (params : ParamsT) (key : Key)
             (observation : list (Agent * Obs)) (p : nat),
        (Ippo.explore split_at explore_fn params key observation).1 !! p
        = (fun ao =>
             (ao.1, (explore_fn params (Spec.turn_key split_at key p) ao.2).1))
          <$> observation !! p
        /\ (Ippo.explore split_at explore_fn params key observation).2 !! p
           = (fun ao =>
                (ao.1,
                 (explore_fn params (Spec.turn_key split_at key p) ao.2).2))
             <$> observation !! p)
  /\ (forall (key : Random.path) (p q : nat),
        p <> q ->
        Spec.turn_key Random.path_split key p
        <> Spec.turn_key Random.path_split key q)
  /\ (forall (key : Random.path) (envs envs' : list nat) (E E' e e' : nat),
        length envs <> length envs' ->
        Spec.env_key Random.path_split key envs E e
        <> Spec.env_key Random.path_split key envs' E' e').
Proof.
  split; [|split; [|split; [|split; [|split; [|split; [|split; [|split]]]]]]].
  - intros state key experience j agents.
    unfold fn_vectorized_parallel, tree_map_outputs. fold agents.
    rewrite outputs_vectorized_parallel_by_rank, mapM_imap_leaf.
    do 2 f_equal. apply imap_ext. intros p [agent x] _. cbn [snd].
    apply vmap_process_fmap_keys.
  - intros state key experience j agents.
    unfold fn_parallel_only, tree_map_outputs. fold agents.
    rewrite outputs_parallel_only_by_rank, mapM_imap_leaf, mapM_imap_Some.
    reflexivity.
  - intros V experience p agent x Hdup Hp. split.
    + apply (rank_sorted_items experience p (agent, x) Hdup Hp).
    + apply (take_sorted_items experience p (agent, x) Hdup Hp).
  - intros V agent experience more. apply below_app_above.
  - intros state key experience experience' j Hdup Hperm.
    unfold fn_vectorized_parallel.
    now rewrite (sorted_items_reorder experience experience').
  - intros state key experience experience' j Hdup Hperm.
    unfold fn_parallel_only.
    now rewrite (sorted_items_reorder experience experience').
  - intros. apply explore_lookup.
  - apply turn_keys_distinct_path.
  - intros key envs envs' E E' e e' Hlen Heq. apply Hlen.
    unfold Spec.env_key in Heq. rewrite !carried_path in Heq.
    unfold Random.path_split in Heq. apply (f_equal length) in Heq.
    rewrite !length_app, !length_fmap in Heq. cbn in Heq. lia.
Qed.

End SubKeys.

Lemma mapM_squeeze0_expand_dims0 {X : Type} (l : list (ndarray X)) :
  mapM squeeze0 (expand_dims0 <$> l) = Some l.
Proof.
  induction l as [|x l IH]; [reflexivity|].
  cbn. cbn in IH. now rewrite IH.
Qed.

Section Degenerate.

Context {Key Agent State Tr Y Leaf Raw X Hyper : Type} `{Dict.KeyOrder Agent}.
Variable split_at : Key -> nat -> nat -> Key.
Variable process_experience_fn : State -> Key -> list Tr -> Leaf -> list Y.
Variable stack_experiences :
  forall vectorized parallel : bool, Raw -> @stacked Agent Tr vectorized parallel.
Variable explore_fn :
  State -> Key -> list (ndarray X) -> Hyper -> list (ndarray X).

(** C6, as the code has it.  With one environment and one agent, the
    experience lift is the wrapped function on the stacked experience; the
    sampling lift calls the wrapped function on the inputs with a leading
    axis of size one added and takes that axis off the results, which is the
    wrapped function on the inputs themselves when that function acts on
    every entry of the leading axis by itself. *)
Theorem degenerate_lifts :
  (forall state key trees hyperparams,
     explore_fn state key (expand_dims0 <$> trees) hyperparams
     = expand_dims0 <$> explore_fn state key trees hyperparams) ->
  (forall state key experience j,
     process_experience_general_factory split_at process_experience_fn
       stack_experiences (vectorized_of 1) (parallel_of 1) state key
       experience j
     = Some (process_experience_fn state key
               (stack_experiences false false experience) j))
  /\ (forall state key trees hyperparams,
        explore_general_factory explore_fn (vectorized_of 1) state key trees
          hyperparams
        = mapM squeeze0
            (explore_fn state key (expand_dims0 <$> trees) hyperparams))
  /\ (forall state key trees hyperparams,
        explore_general_factory explore_fn (vectorized_of 1) state key trees
          hyperparams
        = Some (explore_fn state key trees hyperparams)).
Proof.
  intros Hbatch. split; [|split].
  - reflexivity.
  - reflexivity.
  - intros. change (vectorized_of 1) with false.
    unfold explore_general_factory, input_fn, output_fn. cbn [negb].
    rewrite Hbatch. apply mapM_squeeze0_expand_dims0.
Qed.

End Degenerate.

(** The agents ["b"] and ["a"], put in in this order: the output lists
    ["a"] first, and its entry for step 0, agent 0, environment 1 is the
    entry of ["a"]. *)
Lemma flattened_vectorized_parallel_witness :
  exists flat,
    fn_vectorized_parallel Random.path_split Instances.window tt []
      Instances.b_then_a tt = Some flat
    /\ length flat = 2 * (2 * 2)
    /\ flat !! (0 * (2 * 2) + 0 * 2 + 1) = Some 2.
Proof.
  destruct (flattened_vectorized_parallel Random.path_split Instances.window
              tt [] Instances.b_then_a tt 2 2 2)
    as (flat & Hrun & Hlen & Hent).
  - discriminate.
  - lia.
  - repeat constructor.
  - intros k sl Hsl. exact Hsl.
  - exists flat. split; [exact Hrun|]. split; [exact Hlen|].
    apply (Hent 0 0 1 "a"%string (Array2 2 [[1; 2]; [3; 4]]));
      [reflexivity | lia].
Defined.

(** With two time steps, two agents and two environments the flattened
    output has eight entries, not [E * A = 4]. *)
Lemma leading_dimension_counterexample :
  ~ exists flat,
      fn_vectorized_parallel Random.path_split Instances.window tt []
        Instances.two_by_two tt = Some flat
      /\ length flat = 2 * 2.
Proof.
  intros (flat & Hrun & Hlen). vm_compute in Hrun.
  injection Hrun as <-. discriminate.
Qed.

(** The two agents put in in either order: the lift returns the same, and
    agent ["b"], the second in the sorted order, is the one with one id
    below its own. *)
Lemma sub_keys_by_sorted_rank_witness :
  fn_vectorized_parallel Random.path_split Instances.key_per_step tt []
    Instances.b_then_a tt
  = fn_vectorized_parallel Random.path_split Instances.key_per_step tt []
      Instances.two_by_two tt
  /\ 1 = Dict.rank "b"%string Instances.b_then_a
  /\ Spec.turn_key Random.path_split [] 0
     <> Spec.turn_key Random.path_split [] 1.
Proof.
  assert (Hdup : NoDup Instances.b_then_a.*1).
  { apply NoDup_cons. split; [|apply NoDup_singleton].
    rewrite list_elem_of_singleton. discriminate. }
  destruct (sub_keys_by_sorted_rank (Agent := string) (Tr := nat)
              (Obs := nat) Random.path_split Instances.key_per_step
              Instances.sample_key)
    as (_ & _ & Hrank & _ & Hreorder & _ & _ & Hturn & _).
  split; [|split].
  - apply Hreorder; [exact Hdup | apply perm_swap].
  - apply (Hrank _ Instances.b_then_a 1 "b"%string
             (Array2 2 [[5; 6]; [7; 8]]) Hdup).
    reflexivity.
  - apply Hturn. discriminate.
Defined.

(** Entry 0 of the output for agent ["b"] alone, and entry 2 of the output
    for the agents ["a"] and ["b"], hold what the wrapped function returns
    for step 0 of environment 0 of agent ["b"]; here it returns its key.
    The keys differ: the new agent ["a"] has changed the sub-key of ["b"].
    And [PPO.explore] gives agent ["a"] another key when the dict is built
    the other way round. *)
Lemma sub_key_counterexample :
  fn_vectorized_parallel Random.path_split Instances.key_per_step tt []
    Instances.only_b tt ≫= (fun flat => flat !! 0)
  <> fn_vectorized_parallel Random.path_split Instances.key_per_step tt []
       Instances.two_by_two tt ≫= (fun flat => flat !! 2)
  /\ Instances.dict_get "a"
       (Ippo.explore Random.path_split Instances.sample_key tt []
          [("a"%string, 0); ("b"%string, 0)]).1
     <> Instances.dict_get "a"
          (Ippo.explore Random.path_split Instances.sample_key tt []
             [("b"%string, 0); ("a"%string, 0)]).1.
Proof. split; vm_compute; discriminate. Qed.

Lemma explore_double_rowwise (state : unit) (key : Random.path)
    (trees : list (ndarray nat)) (hyperparams : unit) :
  Instances.explore_double state key (expand_dims0 <$> trees) hyperparams
  = expand_dims0 <$> Instances.explore_double state key trees hyperparams.
Proof.
  unfold Instances.explore_double.
  induction trees as [|x trees IH]; [reflexivity|].
  cbn [fmap list_fmap] in IH |- *. now rewrite IH.
Qed.

Lemma degenerate_lifts_witness :
  process_experience_general_factory Random.path_split Instances.window
    Instances.stack_window (vectorized_of 1) (parallel_of 1) tt [] [3; 4] tt
  = Some [3; 4]
  /\ explore_general_factory Instances.explore_double (vectorized_of 1) tt []
       [Arr [Scalar 7; Scalar 8]] tt
     = Some (Instances.explore_double tt [] [Arr [Scalar 7; Scalar 8]] tt).
Proof.
  destruct (degenerate_lifts (Agent := string) Random.path_split
              Instances.window Instances.stack_window
              Instances.explore_double explore_double_rowwise)
    as (Hprocess & _ & Hexplore).
  split; [apply Hprocess | apply Hexplore].
Defined.

(** A wrapped sampling function that returns [x[:1]]: on the observation
    [[7, 8]] the lift returns [[7, 8]], the function itself [[7]]. *)
Lemma transparent_lift_counterexample :
  explore_general_factory Instances.explore_first (vectorized_of 1) tt []
    [Arr [Scalar 7; Scalar 8]] tt
  <> Some (Instances.explore_first tt [] [Arr [Scalar 7; Scalar 8]] tt).
Proof. vm_compute. discriminate. Qed.

End FactoryProofs.

(** * Further properties *)

Module LossExtras.

Import Loss LossProofs.
Local Open Scope R_scope.

Lemma sum_nonneg (l : list R) :
  Forall (fun x => 0 <= x) l -> 0 <= foldr Rplus 0 l.
Proof.
  induction 1 as [|x l Hx Hl IH]; cbn; lra.
Qed.

Lemma sum_le (l k : list R) :
  Forall2 Rle l k -> foldr Rplus 0 l <= foldr Rplus 0 k.
Proof.
  induction 1 as [|x y l k Hxy Hlk IH]; cbn; lra.
Qed.

Lemma mean_nonneg (l : list R) :
  l <> [] -> Forall (fun x => 0 <= x) l -> 0 <= Spec.mean l.
Proof.
  intros Hne Hl. unfold Spec.mean. apply Rmult_le_pos.
  - now apply sum_nonneg.
  - apply Rlt_le, Rinv_0_lt_compat, lt_0_INR.
    destruct l; [done | cbn; lia].
Qed.

Lemma mean_le (l k : list R) :
  l <> [] -> Forall2 Rle l k -> Spec.mean l <= Spec.mean k.
Proof.
  intros Hne Hlk. unfold Spec.mean.
  rewrite <- (Forall2_length _ _ _ Hlk).
  apply Rmult_le_compat_r.
  - apply Rlt_le, Rinv_0_lt_compat, lt_0_INR.
    destruct l; [done | cbn; lia].
  - now apply sum_le.
Qed.

Lemma well_shaped_same_length (a b : array) :
  well_shaped a -> well_shaped b -> shape b = shape a ->
  length (data b) = length (data a).
Proof. unfold well_shaped. intros -> -> ->. reflexivity. Qed.

Lemma clipped_value_terms_same (eps : R) (v t : list R) :
  0 <= eps ->
  zip_with (fun x to =>
              Rmax ((x - to.1) ^ 2)
                   ((to.2 + Spec.clip (x - to.2) (- eps) eps - to.1) ^ 2))
           v (zip t v)
  = zip_with (fun x y => (x - y) ^ 2) v t.
Proof.
  intros Heps. revert t.
  induction v as [|x v IH]; intros [|y t]; try reflexivity.
  cbn [zip zip_with fst snd]. rewrite IH. f_equal.
  unfold Spec.clip. replace (x - x) with 0 by ring.
  rewrite (Rmax_right (- eps) 0) by lra. rewrite (Rmin_right eps 0) by lra.
  replace (x + 0 - y) with (x - y) by ring. apply Rmax_left. lra.
Qed.

Lemma clipped_value_terms_ge (eps : R) (v t vo : list R) :
  length vo = length v ->
  Forall2 Rle
    (zip_with (fun x y => (x - y) ^ 2) v t)
    (zip_with (fun x to =>
                 Rmax ((x - to.1) ^ 2)
                      ((to.2 + Spec.clip (x - to.2) (- eps) eps - to.1) ^ 2))
              v (zip t vo)).
Proof.
  revert t vo. induction v as [|x v IH]; intros [|y t] [|z vo] Hlen;
    try discriminate; try constructor.
  - apply Rmax_l.
  - apply IH. cbn in Hlen. lia.
Qed.

Lemma surrogate_terms_le (eps : R) (lp lpo g : list R) :
  length g = length lp ->
  Forall2 Rle
    (zip_with (fun l oa => Spec.surrogate eps l oa.1 oa.2) lp (zip lpo g))
    (zip_with (fun l oa => exp (l - oa.1) * oa.2) lp (zip lpo g)).
Proof.
  intros _. revert lpo g.
  induction lp as [|x lp IH]; intros [|y lpo] [|z g]; try constructor.
  - apply Rmin_l.
  - apply IH.
Qed.

Section Losses.

Variable categorical_entropy : array -> array.

(** X1.  When [values] and [values_old] hold the same numbers and the clip radius
    is not negative, the clipped branch is the unclipped one and the value
    loss is the mean squared error. *)
Theorem value_loss_unmoved_values
    (values targets values_old : array) (clip_eps : R) :
  shape values_old = shape values ->
  shape targets = shape values ->
  primals values_old = primals values ->
  0 <= clip_eps ->
  exists loss infos,
    loss_value_clip values targets values_old clip_eps = inr (loss, infos)
    /\ primal loss
       = Spec.mean (zip_with (fun v t => (v - t) ^ 2)
                      (primals values) (primals targets)).
Proof.
  intros Hold Htargets Hsame Heps. unfold loss_value_clip.
  assert (Hshape : assert_equal_shape [values; values_old; targets] = true)
    by (apply assert_equal_shape_3; auto).
  rewrite Hshape. cbn [negb].
  eexists _, _. split; [reflexivity|].
  rewrite primal_mean. f_equal. unfold primals at 1. cbn [data map2 map1].
  rewrite value_pointwise. fold (primals values_old). rewrite Hsame.
  now apply clipped_value_terms_same.
Qed.

(** X2.  On well-shaped, non-empty inputs of equal shape the value loss is never
    below the mean squared error, and never negative: clipping can only raise
    it. *)
Theorem value_loss_at_least_mse
    (values targets values_old : array) (clip_eps : R) :
  well_shaped values -> well_shaped targets -> well_shaped values_old ->
  shape values_old = shape values ->
  shape targets = shape values ->
  data values <> [] ->
  exists loss infos,
    loss_value_clip values targets values_old clip_eps = inr (loss, infos)
    /\ 0 <= Spec.mean (zip_with (fun v t => (v - t) ^ 2)
                         (primals values) (primals targets))
       <= primal loss.
Proof.
  intros Hv Ht Hvo Hold Htargets Hne. unfold loss_value_clip.
  assert (Hshape : assert_equal_shape [values; values_old; targets] = true)
    by (apply assert_equal_shape_3; auto).
  rewrite Hshape. cbn [negb].
  eexists _, _. split; [reflexivity|].
  pose proof (well_shaped_same_length _ _ Hv Ht Htargets) as Hlt.
  pose proof (well_shaped_same_length _ _ Hv Hvo Hold) as Hlo.
  assert (Hnil : zip_with (fun v t => (v - t) ^ 2)
                   (primals values) (primals targets) <> []).
  { unfold primals. destruct (data values), (data targets);
      try done; discriminate. }
  split.
  - apply mean_nonneg; [exact Hnil|].
    clear. generalize (primals targets).
    induction (primals values) as [|x v IH]; intros [|y t];
      constructor; [apply pow2_ge_0 | apply IH].
  - rewrite primal_mean. unfold primals at 3. cbn [data map2 map1].
    rewrite value_pointwise. apply mean_le; [exact Hnil|].
    apply clipped_value_terms_ge. unfold primals.
    now rewrite !length_fmap.
Qed.

(** X4.  On well-shaped, non-empty inputs of equal shape the policy-loss term is
    never below the loss of the unclipped surrogate
    [-mean(ratio * advantage)]: clipping can only raise it. *)
Theorem clipped_policy_loss_pessimistic
    (logits log_probs log_probs_old gaes : array) (clip_eps entropy_coef : R) :
  well_shaped log_probs -> well_shaped log_probs_old -> well_shaped gaes ->
  shape log_probs_old = shape log_probs ->
  shape gaes = shape log_probs ->
  data log_probs <> [] ->
  exists total infos,
    loss_policy_ppo_discrete categorical_entropy logits log_probs log_probs_old
      gaes clip_eps entropy_coef = inr (total, infos)
    /\ - Spec.mean (zip_with (fun l oa => exp (l - oa.1) * oa.2)
                      (primals log_probs)
                      (zip (primals log_probs_old) (primals gaes)))
       <= primal (loss_policy infos).
Proof.
  intros Hlp Hlpo Hg Hold Hgaes Hne. unfold loss_policy_ppo_discrete.
  assert (Hshape : assert_equal_shape [log_probs; log_probs_old; gaes] = true)
    by (apply assert_equal_shape_3; auto).
  rewrite Hshape. cbn [negb].
  eexists _, _. split; [reflexivity|].
  pose proof (well_shaped_same_length _ _ Hlp Hlpo Hold) as Hlo.
  pose proof (well_shaped_same_length _ _ Hlp Hg Hgaes) as Hlg.
  cbn [loss_policy]. rewrite policy_term_primal. unfold Spec.policy_loss.
  apply Ropp_le_contravar. apply mean_le.
  - unfold primals.
    destruct (data log_probs), (data log_probs_old), (data gaes);
      try done; discriminate.
  - apply surrogate_terms_le. unfold primals. now rewrite !length_fmap.
Qed.

End Losses.

End LossExtras.

Module IppoExtras.

Import Ippo KeyProofs IppoProofs.

Section Explore.

Context {Key Agent ParamsT Obs Action LogProb : Type}.
Variable split_at : Key -> nat -> nat -> Key.
Variable explore_fn : ParamsT -> Key -> Obs -> Action * LogProb.

(** X5.  [PPO.explore] answers for exactly the agents of the observation, in
    their order, in both of its dicts. *)
Theorem explore_keeps_agents (params : ParamsT) (key : Key)
    (observation : list (Agent * Obs)) :
  (explore split_at explore_fn params key observation).1.*1 = observation.*1
  /\ (explore split_at explore_fn params key observation).2.*1
     = observation.*1.
Proof.
  revert key. induction observation as [|[agent obs] rest IH]; intros key.
  - split; reflexivity.
  - cbn [explore].
    destruct (explore_fn params (split_at key 2 1) obs) as [a lp].
    destruct (IH (split_at key 2 0)) as [IH1 IH2].
    destruct (explore split_at explore_fn params (split_at key 2 0) rest)
      as [action log_prob].
    cbn in IH1, IH2 |- *. now rewrite IH1, IH2.
Qed.

(** X6.  [PPO.explore] on a mapping followed by more agents: the first agents get
    what they get without the others, and the others are served from the key
    carried over the first ones. *)
Theorem explore_app (params : ParamsT) (key : Key)
    (first more : list (Agent * Obs)) :
  explore split_at explore_fn params key (first ++ more)
  = let r1 := explore split_at explore_fn params key first in
    let r2 :=
      explore split_at explore_fn params
        (Spec.carried split_at key (replicate (length first) 2)) more in
    (r1.1 ++ r2.1, r1.2 ++ r2.2).
Proof.
  revert key. induction first as [|[agent obs] rest IH]; intros key.
  - cbn. now destruct (explore split_at explore_fn params key more).
  - cbn [app explore length replicate]. rewrite carried_cons, IH.
    destruct (explore_fn params (split_at key 2 1) obs) as [a lp].
    cbn zeta.
    destruct (explore split_at explore_fn params (split_at key 2 0) rest)
      as [action log_prob].
    reflexivity.
Qed.

End Explore.

Section Update.

Context {Key State ParamsT Sample Experiences V : Type}.
Variable split_at : Key -> nat -> nat -> Key.
Variable state_params : State -> ParamsT.
Variable process_experience_fn : ParamsT -> Sample -> Experiences.
Variable update_step_fn :
  State -> Key -> Experiences -> State * R * gmap string V.
Variable num_epochs : Z.
Variable scalar : R -> V.

Lemma epochs_info_bound (experiences : Experiences) (n : nat) (state : State)
    (key : Key) (loss : R) (info : option (gmap string V)) :
  0 < n ->
  is_Some (epochs split_at update_step_fn n experiences state key loss info).2.
Proof.
  revert state key loss info. induction n as [|n IH];
    intros state key loss info Hn; [lia|].
  cbn [epochs].
  destruct (update_step_fn state (split_at key 2 1) experiences)
    as [[state' l] info'].
  destruct n as [|n]; [cbn; eauto | apply IH; lia].
Qed.

(** X7.  [PPO.update] returns exactly when [num_epochs] is positive.  When
    [num_epochs] is zero it raises on the division by zero; when it is
    negative the loop does not run, the division goes through, and reading
    the unbound name [info] raises. *)
Theorem update_returns_iff_positive_epochs
    (state : State) (key : Key) (sample : Sample) :
  let result :=
    update split_at state_params process_experience_fn update_step_fn
      num_epochs scalar state key sample in
  (result = inl ZeroDivisionError <-> num_epochs = 0%Z)
  /\ (result = inl UnboundLocalError <-> (num_epochs < 0)%Z)
  /\ (is_Some (match result with inr r => Some r | inl _ => None end)
      <-> (0 < num_epochs)%Z).
Proof.
  cbn zeta. unfold update.
  set (experiences := process_experience_fn (state_params state) sample).
  destruct (decide (num_epochs = 0%Z)) as [Hz|Hnz].
  - destruct (epochs split_at update_step_fn (Z.to_nat num_epochs) experiences
                state key 0 None) as [[s l] i].
    split; [tauto|]. split; [split; [discriminate | lia]|].
    split; [intros [r Hr]; discriminate | lia].
  - destruct (decide (0 < num_epochs)%Z) as [Hpos|Hneg].
    + pose proof (epochs_info_bound experiences (Z.to_nat num_epochs) state
                    key 0%R None) as Hinfo.
      destruct (epochs split_at update_step_fn (Z.to_nat num_epochs)
                  experiences state key 0 None) as [[s l] i].
      specialize (Hinfo ltac:(lia)). cbn in Hinfo.
      destruct Hinfo as [info ->].
      split; [split; [discriminate | tauto]|].
      split; [split; [discriminate | lia]|].
      split; [tauto | eauto].
    + replace (Z.to_nat num_epochs) with 0 by lia. cbn [epochs].
      split; [split; [discriminate | tauto]|].
      split; [split; [lia | reflexivity]|].
      split; [intros [r Hr]; discriminate | lia].
Qed.

(** X8.  The epoch loop over [n + m] epochs is the loop over [n] epochs followed
    by the loop over [m] epochs on what the first left: its state, the key
    carried over [n] splits, its loss and its diagnostics. *)
Theorem epochs_add (experiences : Experiences) (n m : nat) (state : State)
    (key : Key) (loss : R) (info : option (gmap string V)) :
  epochs split_at update_step_fn (n + m) experiences state key loss info
  = let '(state', loss', info') :=
      epochs split_at update_step_fn n experiences state key loss info in
    epochs split_at update_step_fn m experiences state'
      (Spec.carried split_at key (replicate n 2)) loss' info'.
Proof.
  revert state key loss info. induction n as [|n IH];
    intros state key loss info.
  - reflexivity.
  - cbn [Nat.add epochs replicate]. rewrite carried_cons.
    destruct (update_step_fn state (split_at key 2 1) experiences)
      as [[state' l] info'].
    apply IH.
Qed.

(** X9.  After a successful [PPO.update] the diagnostics hold the mean loss under
    ["total_loss"], in place of whatever the last step stored there, and every
    other entry of the last step as it is. *)
Theorem update_diagnostics_lookup
    (state : State) (key : Key) (sample : Sample) :
  (0 < num_epochs)%Z ->
  let experiences := process_experience_fn (state_params state) sample in
  let n := Z.to_nat num_epochs in
  exists state' info,
    update split_at state_params process_experience_fn update_step_fn
      num_epochs scalar state key sample = inr (state', info)
    /\ info !! "total_loss"%string
       = Some (scalar (Spec.loss_sum split_at update_step_fn experiences state
                         key n / IZR num_epochs)%R)
    /\ forall name : string, name <> "total_loss"%string ->
         info !! name
         = Spec.info_at split_at update_step_fn experiences state key
             (n - 1) !! name.
Proof.
  intros Hpos experiences n. unfold update. fold experiences. fold n.
  pose proof (epochs_from split_at update_step_fn experiences state key
                n 0 0%R None) as Hrun.
  cbn [Spec.state_at replicate Spec.carried foldl] in Hrun.
  rewrite Hrun. cbn [Nat.add].
  rewrite decide_False by lia.
  destruct n as [|n'] eqn:Hn; [lia|].
  eexists _, _. split; [reflexivity|]. split.
  - rewrite lookup_insert_eq. unfold Spec.loss_sum. now rewrite Rplus_0_l.
  - intros name Hname. rewrite lookup_insert_ne by done.
    now replace (S n' - 1) with n' by lia.
Qed.

End Update.

Section ProcessExperience.

Context {PE PV Obs Hidden Val : Type}.
Variable encoder_fn : PE -> list Obs -> list Hidden.
Variable value_fn : PV -> list Hidden -> list Val.
Variable gamma : R.

(** X10.  The next values handed to the GAE computation are the values moved one
    step ahead: both come from one evaluation of the critic and overlap in
    all entries but one. *)
Theorem next_values_are_values_shifted
    (params : ParamsPolicyValue PE PV)
    (observations next_observations : list Obs) (dones rewards : list R)
    (t : nat) :
  let inputs :=
    compute_values_gaes_inputs encoder_fn value_fn gamma params observations
      next_observations dones rewards in
  S t < length inputs.1.1.1 ->
  inputs.1.1.2 !! t = inputs.1.1.1 !! S t
  /\ length inputs.1.1.2 = length inputs.1.1.1.
Proof.
  cbn zeta. unfold compute_values_gaes_inputs. cbn [fst snd].
  set (all_values := value_fn _ _). intros Ht.
  rewrite length_take in Ht. split.
  - rewrite lookup_drop, lookup_take_lt by lia. reflexivity.
  - rewrite length_drop, length_take. lia.
Qed.

(** X11.  With networks that keep the number of rows: there are as many values as
    observations when a next observation is there, and one fewer when
    [next_observations] is empty. *)
Theorem values_count
    (params : ParamsPolicyValue PE PV)
    (observations next_observations : list Obs) (dones rewards : list R) :
  (forall pe pv xs, length (value_fn pv (encoder_fn pe xs)) = length xs) ->
  length (compute_values_gaes_inputs encoder_fn value_fn gamma params
            observations next_observations dones rewards).1.1.1
  = match next_observations with
    | [] => length observations - 1
    | _ :: _ => length observations
    end.
Proof.
  intros Hrows. unfold compute_values_gaes_inputs. cbn [fst snd].
  rewrite length_take, Hrows, length_app, length_drop.
  destruct next_observations; cbn [length]; lia.
Qed.

End ProcessExperience.

End IppoExtras.

Module ParallelExploreProofs.

Import Factory ParallelExplore DictProofs FactoryProofs.

Lemma lookup_omap_total {A B : Type} (g : A -> option B) (l : list A) (p : nat) :
  Forall (fun x => is_Some (g x)) l -> omap g l !! p = l !! p ≫= g.
Proof.
  intros Hl. revert p. induction Hl as [|x l [y Hy] Hl IH]; intros p.
  - reflexivity.
  - cbn. rewrite Hy. destruct p as [|p]; cbn; [now rewrite Hy | apply IH].
Qed.

Lemma length_omap_total {A B : Type} (g : A -> option B) (l : list A) :
  Forall (fun x => is_Some (g x)) l -> length (omap g l) = length l.
Proof.
  induction 1 as [|x l [y Hy] Hl IH]; [reflexivity|].
  cbn. rewrite Hy. cbn. now rewrite IH.
Qed.

Section FnParallel.

Context {Agent ParamsT Args Hyper Out : Type} `{Dict.KeyOrder Agent}.
Variable fn : ParamsT -> Args -> Hyper -> list Out.

Lemma foldl_scatter_None (res : list (Agent * list Out)) :
  foldl scatter_outputs None res = None.
Proof. induction res as [|av res IH]; [reflexivity | exact IH]. Qed.

Lemma foldl_scatter_Some (res : list (Agent * list Out))
    (outputs : list (list (Agent * Out))) :
  Forall (fun av => length outputs <= length av.2) res ->
  exists outs,
    foldl scatter_outputs (Some outputs) res = Some outs
    /\ length outs = length outputs
    /\ forall i d, outputs !! i = Some d ->
         outs !! i = Some (d ++ omap (pick i) res).
Proof.
  intros Hres. revert outputs Hres.
  induction res as [|[a v] res IH]; intros outputs Hres.
  - exists outputs. repeat split. intros i d Hd. cbn. now rewrite app_nil_r.
  - apply Forall_cons in Hres as [Hv Hres]. cbn [snd] in Hv.
    cbn [foldl]. unfold scatter_outputs at 2. cbn [mbind option_bind snd fst].
    rewrite decide_True by exact Hv.
    set (outputs' := zip_with (fun d o => d ++ [(a, o)]) outputs v).
    assert (Hlen : length outputs' = length outputs).
    { unfold outputs'. rewrite length_zip_with. lia. }
    destruct (IH outputs') as (outs & Hrun & Hlen' & Hent).
    { now rewrite Hlen. }
    exists outs. split; [exact Hrun|]. split; [lia|].
    intros i d Hd.
    destruct (lookup_lt_is_Some_2 v i) as [o Ho].
    { apply lookup_lt_Some in Hd. lia. }
    rewrite (Hent i (d ++ [(a, o)])).
    + cbn [omap list_omap]. unfold pick at 2. cbn [fst snd]. rewrite Ho.
      cbn. now rewrite <- app_assoc.
    + unfold outputs'. rewrite lookup_zip_with, Hd. cbn. now rewrite Ho.
Qed.

Lemma foldl_scatter_short (res : list (Agent * list Out))
    (outputs : list (list (Agent * Out))) :
  Exists (fun av => length av.2 < length outputs) res ->
  foldl scatter_outputs (Some outputs) res = None.
Proof.
  intros Hres. revert outputs Hres.
  induction res as [|[a v] res IH]; intros outputs Hres.
  - inversion Hres.
  - cbn [foldl]. unfold scatter_outputs at 2. cbn [mbind option_bind snd fst].
    destruct (decide (length outputs <= length v)) as [Hle|Hgt].
    + apply IH. apply Exists_cons in Hres as [Hv|Hres]; [cbn in Hv; lia|].
      eapply Exists_impl; [exact Hres|]. cbn. intros av Hav.
      rewrite length_zip_with. lia.
    + apply foldl_scatter_None.
Qed.

Lemma fn_parallel_entries (params : ParamsT) (trees : list (Agent * Args))
    (agent : Agent) (x : Args) (rest : list (Agent * Args))
    (hyperparams : Hyper) :
  Dict.sorted_items trees = (agent, x) :: rest ->
  let n := length (fn params x hyperparams) in
  Forall (fun ax => n <= length (fn params ax.2 hyperparams)) rest ->
  exists outs,
    fn_parallel fn params trees hyperparams = Some outs
    /\ length outs = n
    /\ Forall (fun d => d.*1 = (Dict.sorted_items trees).*1) outs
    /\ forall i p, i < n ->
         entry outs i p
         = Dict.sorted_items trees !! p ≫= fun ax =>
             (fun o => (ax.1, o)) <$> fn params ax.2 hyperparams !! i.
Proof.
  intros Hsorted n Hrest. unfold fn_parallel. rewrite Hsorted.
  set (agents := (agent, x) :: rest).
  set (res := (fun ax => (ax.1, fn params ax.2 hyperparams)) <$> agents).
  change res with ((agent, fn params x hyperparams) :: (tl res)) at 1.
  cbn [snd]. fold n.
  assert (Hres : Forall (fun av => n <= length av.2) res).
  { unfold res, agents. apply Forall_fmap, Forall_cons. split; [cbn; lia|].
    exact Hrest. }
  destruct (foldl_scatter_Some res (replicate n [])) as (outs & Hrun & Hlen & Hent).
  { now rewrite length_replicate. }
  rewrite length_replicate in Hlen.
  assert (Hpick : forall i, i < n ->
            Forall (fun av => is_Some (pick i av)) res).
  { intros i Hi. eapply Forall_impl; [exact Hres|]. intros [a v] Hv.
    cbn in Hv. unfold pick. cbn.
    destruct (lookup_lt_is_Some_2 v i) as [o ->]; [lia | cbn; eauto]. }
  assert (Hrow : forall i, i < n -> outs !! i = Some (omap (pick i) res)).
  { intros i Hi. rewrite (Hent i []); [reflexivity|].
    now apply lookup_replicate_2. }
  exists outs. split; [exact Hrun|]. split; [exact Hlen|]. split.
  - apply Forall_lookup_2. intros i d Hd.
    assert (Hi : i < n) by (apply lookup_lt_Some in Hd; lia).
    rewrite Hrow in Hd by exact Hi.
    assert (Hd' : d = omap (pick i) res) by congruence. rewrite Hd'. clear Hd Hd'.
    apply list_eq. intros p. rewrite !list_lookup_fmap.
    rewrite lookup_omap_total by (apply Hpick; exact Hi).
    unfold res. rewrite list_lookup_fmap.
    destruct (agents !! p) as [[a y]|] eqn:Hp; [|reflexivity].
    cbn. unfold pick. cbn.
    specialize (Hpick i Hi).
    pose proof (Forall_lookup_1 _ _ p (a, fn params y hyperparams) Hpick) as Hs.
    unfold res in Hs. rewrite list_lookup_fmap, Hp in Hs.
    destruct (Hs eq_refl) as [ao Hao]. unfold pick in Hao. cbn in Hao.
    destruct (fn params y hyperparams !! i); [reflexivity | discriminate].
  - intros i p Hi. unfold entry. rewrite (Hrow i Hi).
    cbn [mbind option_bind].
    rewrite lookup_omap_total by (apply Hpick; exact Hi).
    unfold res. rewrite list_lookup_fmap.
    destruct (agents !! p) as [[a y]|]; reflexivity.
Qed.

(** X12.  [fn_parallel] turns the dict of output tuples into the tuple of output
    dicts.  With [n] the number of outputs of the agent that comes first in
    the sorted order of the ids, and no agent with fewer: there are [n]
    dicts, dict [i] gives every agent, in the sorted order of the ids, its
    output [i]; outputs beyond [n] are left out. *)
Theorem fn_parallel_transposes (params : ParamsT)
    (trees : list (Agent * Args)) (agent : Agent) (x : Args)
    (rest : list (Agent * Args)) (hyperparams : Hyper) :
  Dict.sorted_items trees = (agent, x) :: rest ->
  let n := length (fn params x hyperparams) in
  Forall (fun ax => n <= length (fn params ax.2 hyperparams)) rest ->
  exists outs,
    fn_parallel fn params trees hyperparams = Some outs
    /\ length outs = n
    /\ Forall (fun d => d.*1 = (Dict.sorted_items trees).*1) outs
    /\ forall i p, i < n ->
         entry outs i p
         = Dict.sorted_items trees !! p ≫= fun ax =>
             (fun o => (ax.1, o)) <$> fn params ax.2 hyperparams !! i.
Proof. apply fn_parallel_entries. Qed.

(** X13.  [fn_parallel] raises exactly on an empty mapping and when some agent
    returns fewer outputs than the agent that comes first in the sorted order
    of the ids. *)
Theorem fn_parallel_raises (params : ParamsT) (trees : list (Agent * Args))
    (hyperparams : Hyper) :
  fn_parallel fn params trees hyperparams = None
  <-> match Dict.sorted_items trees with
      | [] => trees = []
      | (_, x) :: _ =>
          Exists (fun ax => length (fn params ax.2 hyperparams)
                            < length (fn params x hyperparams)) trees
      end.
Proof.
  pose proof (sorted_items_nil trees) as Hnil.
  pose proof (fun P => Exists_sorted_items P trees) as Hsome.
  unfold fn_parallel.
  destruct (Dict.sorted_items trees) as [|[agent x] rest].
  { split; [intros _; now apply Hnil | reflexivity]. }
  rewrite <- Hsome. clear Hnil Hsome.
  set (n := length (fn params x hyperparams)).
  set (res := (fun ax => (ax.1, fn params ax.2 hyperparams))
              <$> (agent, x) :: rest).
  change res with ((agent, fn params x hyperparams) :: (tl res)) at 1.
  cbn [snd]. fold n.
  destruct (decide (Forall (fun av => n <= length av.2) res)) as [Hall|Hex].
  - destruct (foldl_scatter_Some res (replicate n [])) as (outs & Hrun & _).
    { now rewrite length_replicate. }
    rewrite Hrun. split; [discriminate|]. intros Hshort. exfalso.
    apply Exists_exists in Hshort as (ax & Hin & Hlt).
    unfold res in Hall. rewrite Forall_fmap in Hall.
    pose proof (proj1 (Forall_forall _ _) Hall ax Hin) as Hge. cbn in Hge. lia.
  - apply not_Forall_Exists in Hex; [|intros av; apply _].
    apply Exists_exists in Hex as (av & Hin & Hshort). cbn in Hshort.
    split; [intros _|intros _].
    + unfold res in Hin. apply list_elem_of_fmap in Hin as (ax & -> & Hax).
      apply Exists_exists. exists ax. split; [exact Hax|]. cbn in Hshort.
      fold n. lia.
    + apply foldl_scatter_short. rewrite length_replicate.
      apply Exists_exists. exists av. split; [exact Hin | lia].
Qed.

End FnParallel.

End ParallelExploreProofs.

Module ParallelLiftProofs.

Import Factory ParallelExplore DictProofs FactoryProofs ParallelExploreProofs.

Section Explore.

Context {Key Agent State X Hyper : Type} `{Dict.KeyOrder Agent}.
Variable explore_fn :
  State -> Key -> list (ndarray X) -> Hyper -> list (ndarray X).

Lemma length_explore_general_factory (vectorized : bool) (state : State)
    (key : Key) (trees : list (ndarray X)) (hyperparams : Hyper)
    (outs : list (ndarray X)) :
  explore_general_factory explore_fn vectorized state key trees hyperparams
  = Some outs ->
  length (explore_fn state key (input_fn vectorized trees) hyperparams)
  = length outs.
Proof.
  unfold explore_general_factory, output_fn.
  destruct vectorized; cbn [negb].
  - now intros [= <-].
  - apply length_mapM.
Qed.

Lemma lookup_explore_general_factory (vectorized : bool) (state : State)
    (key : Key) (trees : list (ndarray X)) (hyperparams : Hyper)
    (outs : list (ndarray X)) (i : nat) (raw : ndarray X) :
  explore_general_factory explore_fn vectorized state key trees hyperparams
  = Some outs ->
  explore_fn state key (input_fn vectorized trees) hyperparams !! i = Some raw ->
  exists o, outs !! i = Some o
            /\ (if negb vectorized then squeeze0 raw else Some raw) = Some o.
Proof.
  unfold explore_general_factory, output_fn.
  destruct vectorized; cbn [negb].
  - intros [= <-] Hraw. eauto.
  - intros Hm%mapM_Some_1 Hraw.
    destruct (Forall2_lookup_l _ _ _ _ _ Hm Hraw) as (o & Ho & Hsq). eauto.
Qed.

(** X14.  With several agents the sampling lift is the single-agent lift agent by
    agent, turned into one dict per output: when every agent's lift returns
    [n] outputs, output dict [i] gives every agent, in the sorted order of
    the ids, output [i] of its own lift under its own key. *)
Theorem parallel_lift_agent_by_agent (vectorized : bool) (state : State)
    (trees : list (Agent * (Key * list (ndarray X)))) (hyperparams : Hyper)
    (n : nat) :
  let single akx :=
    explore_general_factory explore_fn vectorized state akx.1 akx.2
      hyperparams in
  trees <> [] ->
  Forall (fun akx => exists outs, single akx.2 = Some outs /\ length outs = n)
         trees ->
  exists res,
    explore_general_factory_parallel explore_fn vectorized state trees
      hyperparams = Some res
    /\ length res = n
    /\ forall i p, i < n ->
         entry res i p
         = Dict.sorted_items trees !! p ≫= fun akx =>
             (fun o => (akx.1, o)) <$> (single akx.2 ≫= fun outs => outs !! i).
Proof.
  intros single Hne Hall.
  apply Forall_sorted_items in Hall.
  destruct (Dict.sorted_items trees) as [|[agent kx] rest] eqn:Hsorted.
  { apply (proj1 (sorted_items_nil trees)) in Hsorted. contradiction. }
  set (agents := (agent, kx) :: rest) in *.
  unfold explore_general_factory_parallel.
  set (wrapped := fun (s : State) (kx : Key * list (ndarray X)) (h : Hyper) =>
                    explore_fn s kx.1 kx.2 h).
  set (expand := fun akx : Agent * (Key * list (ndarray X)) =>
                   (akx.1, (akx.2.1, input_fn vectorized akx.2.2))).
  assert (Hexpanded : Dict.sorted_items (expand <$> trees) = expand <$> agents).
  { rewrite sorted_items_fmap by reflexivity. now rewrite Hsorted. }
  assert (Hraw : forall akx, akx ∈ agents ->
            length (wrapped state (expand akx).2 hyperparams) = n).
  { intros akx Hin.
    destruct (proj1 (Forall_forall _ _) Hall akx Hin) as (outs & Hs & Hlen).
    unfold wrapped, expand. cbn [fst snd].
    now rewrite (length_explore_general_factory _ _ _ _ _ _ Hs). }
  destruct (fn_parallel_entries wrapped state (fmap (M:=list) expand trees)
              agent (expand (agent, kx)).2 (fmap (M:=list) expand rest)
              hyperparams Hexpanded)
    as (raws & Hrun & Hlen & Hagents & Hent).
  { rewrite (Hraw (agent, kx)) by (unfold agents; left).
    apply Forall_fmap, Forall_forall. intros akx Hin.
    change (n <= length (wrapped state (expand akx).2 hyperparams)).
    rewrite (Hraw akx) by (unfold agents; now right). lia. }
  rewrite (Hraw (agent, kx)) in Hlen, Hent by (unfold agents; left).
  rewrite Hexpanded in Hagents, Hent.
  rewrite Hrun. cbn [mbind option_bind].
  assert (Hgoal : forall i p, i < n ->
            (entry raws i p ≫= fun ao =>
               (fun o => (ao.1, o))
               <$> (if negb vectorized then squeeze0 ao.2 else Some ao.2))
            = agents !! p ≫= fun akx =>
                (fun o => (akx.1, o))
                <$> (single akx.2 ≫= fun outs => outs !! i)).
  { intros i p Hi. rewrite Hent by exact Hi. rewrite list_lookup_fmap.
    destruct (agents !! p) as [akx|] eqn:Hp; [|reflexivity].
    cbn [fmap option_fmap option_map mbind option_bind].
    destruct (proj1 (Forall_forall _ _) Hall akx) as (outs & Hs & Hlo).
    { eapply list_elem_of_lookup_2. exact Hp. }
    rewrite Hs. cbn [mbind option_bind].
    destruct (lookup_lt_is_Some_2
                (wrapped state (expand akx).2 hyperparams) i) as [raw Hr].
    { rewrite Hraw; [exact Hi | eapply list_elem_of_lookup_2; exact Hp]. }
    rewrite Hr. cbn [fmap option_fmap option_map mbind option_bind fst snd].
    destruct (lookup_explore_general_factory _ _ _ _ _ _ i raw Hs Hr)
      as (o & Ho & Hsq).
    rewrite Ho. unfold expand. cbn [fst snd]. now rewrite Hsq. }
  destruct vectorized; cbn [negb] in Hgoal |- *.
  - exists raws. split; [reflexivity|]. split; [exact Hlen|].
    intros i p Hi. rewrite <- Hgoal by exact Hi.
    unfold entry. destruct (raws !! i) as [d|]; [|reflexivity]. cbn.
    destruct (d !! p) as [[a o]|]; reflexivity.
  - destruct (mapM_pointwise
                (mapM (fun ao : Agent * ndarray X =>
                         (fun o => (ao.1, o)) <$> squeeze0 ao.2))
                raws
                (fun i row => forall p,
                   row !! p
                   = entry raws i p ≫= fun ao =>
                       (fun o => (ao.1, o)) <$> squeeze0 ao.2))
      as (res & Hres & Hrl & Hrp).
    { intros i d Hd.
      assert (Hi : i < n) by (apply lookup_lt_Some in Hd; lia).
      assert (Hdl : length d = length agents).
      { pose proof (Forall_lookup_1 _ _ _ _ Hagents Hd) as Hfst.
        cbn beta in Hfst. apply (f_equal length) in Hfst.
        now rewrite !length_fmap in Hfst. }
      destruct (mapM_pointwise
                  (fun ao : Agent * ndarray X =>
                     (fun o => (ao.1, o)) <$> squeeze0 ao.2)
                  d
                  (fun p y =>
                     Some y
                     = entry raws i p ≫= fun ao =>
                         (fun o => (ao.1, o)) <$> squeeze0 ao.2))
        as (row & Hrow & Hrowl & Hrowp).
      { intros p ao Hao.
        assert (Hp : p < length agents) by (apply lookup_lt_Some in Hao; lia).
        pose proof (Hgoal i p Hi) as Hg.
        destruct (lookup_lt_is_Some_2 agents p Hp) as [akx Hakx].
        destruct (proj1 (Forall_forall _ _) Hall akx) as (outs & Hs & Hlo).
        { eapply list_elem_of_lookup_2. exact Hakx. }
        destruct (lookup_lt_is_Some_2 outs i) as [o Ho]; [lia|].
        unfold entry in Hg |- *. rewrite Hd, Hakx in Hg. rewrite Hd.
        cbn [mbind option_bind] in Hg |- *. rewrite Hao in Hg. rewrite Hao.
        rewrite Hs in Hg. cbn [mbind option_bind] in Hg |- *.
        rewrite Ho in Hg.
        destruct (squeeze0 ao.2) as [o'|]; [eauto | discriminate]. }
      exists row. split; [exact Hrow|]. intros p.
      destruct (row !! p) as [y|] eqn:Hy.
      - now apply Hrowp.
      - apply lookup_ge_None in Hy. unfold entry. rewrite Hd. cbn.
        rewrite (proj2 (lookup_ge_None d p)) by lia. reflexivity. }
    exists res. split; [exact Hres|]. split; [lia|].
    intros i p Hi. rewrite <- Hgoal by exact Hi.
    unfold entry at 1.
    destruct (res !! i) as [row|] eqn:Hrow.
    + cbn. now apply Hrp.
    + apply lookup_ge_None in Hrow. lia.
Qed.

End Explore.

End ParallelLiftProofs.

Module RegimeProofs.

Import Factory KeyProofs DictProofs FactoryProofs.

Lemma stack1_Some_uniform {X : Type} (xs : list (list X)) (out : list (list X)) :
  stack1 xs = Some out ->
  xs <> [] /\ Forall (fun x => length x = length out) xs.
Proof.
  revert out. induction xs as [|x xs IH]; intros out Hout; [done|].
  split; [discriminate|].
  destruct xs as [|x' xs].
  - cbn in Hout. injection Hout as <-. rewrite length_fmap.
    now repeat constructor.
  - change (stack1 (x :: x' :: xs))
      with (match stack1 (x' :: xs) with
            | None => None
            | Some out =>
                if decide (length x = length out)
                then Some (zip_with cons x out) else None
            end) in Hout.
    destruct (stack1 (x' :: xs)) as [out'|] eqn:Hout'; [|discriminate].
    destruct (decide (length x = length out')) as [Hlen|]; [|discriminate].
    injection Hout as <-.
    destruct (IH out' eq_refl) as [_ Hall].
    rewrite length_zip_with, <- Hlen, Nat.min_id.
    constructor; [reflexivity|]. now rewrite Hlen.
Qed.

Lemma concatenate1_singletons {X : Type} (xs : list (list X)) :
  concatenate1 ((fun x : list X => (fun y => [y]) <$> x) <$> xs) = stack1 xs.
Proof.
  induction xs as [|x xs IH]; [reflexivity|].
  destruct xs as [|x' xs]; [reflexivity|].
  change (concatenate1
            ((fun x : list X => (fun y => [y]) <$> x) <$> x :: x' :: xs))
    with (match concatenate1
                  ((fun x : list X => (fun y => [y]) <$> x) <$> x' :: xs) with
          | None => None
          | Some out =>
              if decide (length ((fun y => [y]) <$> x) = length out)
              then Some (zip_with app ((fun y => [y]) <$> x) out) else None
          end).
  change (stack1 (x :: x' :: xs))
    with (match stack1 (x' :: xs) with
          | None => None
          | Some out =>
              if decide (length x = length out)
              then Some (zip_with cons x out) else None
          end).
  rewrite IH. destruct (stack1 (x' :: xs)) as [out|]; [|reflexivity].
  rewrite length_fmap.
  destruct (decide (length x = length out)); [|reflexivity].
  f_equal. now rewrite zip_with_fmap_l.
Qed.

Section Regimes.

Context {Key Agent State Tr Y Leaf : Type} `{Dict.KeyOrder Agent}.
Variable split_at : Key -> nat -> nat -> Key.
Variable process_experience_fn : State -> Key -> list Tr -> Leaf -> list Y.

Lemma length_parallel_keys (experience : list (Agent * list Tr)) (key : Key) :
  length (parallel_keys split_at key experience) = length experience.
Proof.
  revert key. induction experience as [|[agent x] rest IH]; intros key;
    cbn; [reflexivity | now rewrite IH].
Qed.

(** What every agent's call returns on leaf [j] when only [parallel]. *)
Lemma parallel_outputs (state : State) (key : Key)
    (experience : list (Agent * list Tr)) (j : Leaf) :
  mapM (fun o : Leaf -> option (list Y) => o j)
    (zip_with (fun k x j => Some (process_experience_fn state k.2 x.2 j))
       (parallel_keys split_at key experience) experience)
  = Some (imap (fun p ax =>
                  process_experience_fn state (Spec.turn_key split_at key p)
                    ax.2 j)
               experience).
Proof.
  apply mapM_Some_2, Forall2_same_length_lookup_2.
  - rewrite length_zip_with, length_parallel_keys, length_imap. lia.
  - intros p o out Ho Hout.
    apply lookup_zip_with_Some in Ho as (k & ax & -> & Hk & Hax).
    rewrite parallel_keys_lookup, Hax in Hk. cbn in Hk. injection Hk as <-.
    rewrite list_lookup_imap, Hax in Hout. cbn in Hout. cbn. exact Hout.
Qed.

(** X15.  The parallel-only regime: with [A] agents whose results have [d0]
    entries along their leading axis, a leaf of the output has [d0 * A]
    entries, and the entry at [t * A + p] is entry [t] of the result for the
    agent of rank [p] in the sorted order of the ids, called on its own
    window with its own sub-key. *)
Theorem flattened_parallel_only
    (state : State) (key : Key) (experience : list (Agent * list Tr))
    (j : Leaf) (d0 : nat) :
  experience <> [] ->
  (forall p agent x, Dict.sorted_items experience !! p = Some (agent, x) ->
     length (process_experience_fn state (Spec.turn_key split_at key p) x j)
     = d0) ->
  exists flat,
    fn_parallel_only split_at process_experience_fn state key experience j
    = Some flat
    /\ length flat = d0 * length experience
    /\ forall t p agent x,
         Dict.sorted_items experience !! p = Some (agent, x) ->
         flat !! (t * length experience + p)
         = process_experience_fn state (Spec.turn_key split_at key p) x j !! t.
Proof.
  rewrite <- (sorted_items_nil experience), <- (length_sorted_items experience).
  unfold fn_parallel_only, outputs_parallel_only, tree_map_outputs. cbn zeta.
  generalize (Dict.sorted_items experience). clear experience.
  intros experience Hne Hlen.
  rewrite parallel_outputs. cbn [mbind option_bind]. unfold stack_and_reshape.
  set (outs := imap _ experience).
  destruct (stack1_uniform outs d0) as (out & Hout & Hd & Hw & Hent).
  - unfold outs. destruct experience; [done | discriminate].
  - apply Forall_lookup_2. intros p o Ho. unfold outs in Ho.
    rewrite list_lookup_imap in Ho.
    destruct (experience !! p) as [[agent x]|] eqn:Hp; [|discriminate].
    cbn in Ho. injection Ho as <-. eapply Hlen. exact Hp.
  - rewrite Hout. cbn [fmap option_fmap option_map]. exists (concat out).
    assert (Hwide : Forall (fun row => length row = length experience) out).
    { unfold outs in Hw. now rewrite length_imap in Hw. }
    unfold reshape_merge. repeat split.
    + rewrite (length_concat_uniform out (length experience)) by exact Hwide.
      now rewrite Hd.
    + intros t p agent x Hp.
      rewrite (lookup_concat_uniform out (length experience));
        [|exact Hwide | apply lookup_lt_Some in Hp; exact Hp].
      rewrite Hent. unfold entry, outs. rewrite list_lookup_imap, Hp.
      reflexivity.
Qed.

(** X16.  The parallel-only regime raises on a leaf exactly when there is no agent
    or two agents' results differ in the size of their leading axis. *)
Theorem parallel_only_succeeds_iff
    (state : State) (key : Key) (experience : list (Agent * list Tr))
    (j : Leaf) :
  is_Some (fn_parallel_only split_at process_experience_fn state key
             experience j)
  <-> experience <> []
      /\ exists d0, forall p agent x,
           Dict.sorted_items experience !! p = Some (agent, x) ->
           length (process_experience_fn state
                     (Spec.turn_key split_at key p) x j) = d0.
Proof.
  rewrite <- (sorted_items_nil experience).
  unfold fn_parallel_only, outputs_parallel_only. cbn zeta.
  generalize (Dict.sorted_items experience). clear experience.
  intros experience.
  split.
  - unfold tree_map_outputs.
    rewrite parallel_outputs. cbn [mbind option_bind].
    unfold stack_and_reshape.
    destruct (stack1 _) as [out|] eqn:Hout; [|intros [? [=]]]. intros _.
    apply stack1_Some_uniform in Hout as [Hne Hall]. split.
    + intros ->. now apply Hne.
    + exists (length out). intros p agent x Hp.
      eapply (Forall_lookup_1 _ _ p) in Hall; [exact Hall|].
      now rewrite list_lookup_imap, Hp.
  - intros (Hne & d0 & Hlen). unfold tree_map_outputs.
    rewrite parallel_outputs. cbn [mbind option_bind].
    unfold stack_and_reshape.
    destruct (stack1_uniform
                (imap (fun p ax =>
                         process_experience_fn state
                           (Spec.turn_key split_at key p) ax.2 j) experience)
                d0) as (out & -> & _).
    + destruct experience; [done | discriminate].
    + apply Forall_lookup_2. intros p o Ho. rewrite list_lookup_imap in Ho.
      destruct (experience !! p) as [[agent x]|] eqn:Hp; [|discriminate].
      cbn in Ho. injection Ho as <-. eapply Hlen. exact Hp.
    + cbn. eauto.
Qed.

(** [jax.vmap] of the wrapped function over the columns, under keys given by
    their index. *)
Lemma vmap_process_by_index (state : State) (kf : nat -> Key) (x : array2 Tr)
    (j : Leaf) (T d0 : nat) :
  0 < shape1 x -> shape0 x = T -> rectangular x ->
  (forall k sl, length sl = T ->
     length (process_experience_fn state k sl j) = d0) ->
  exists m,
    vmap_process process_experience_fn state (kf <$> seq 0 (shape1 x)) x j
    = Some m
    /\ length m = d0
    /\ Forall (fun row => length row = shape1 x) m
    /\ forall t e, e < shape1 x ->
         entry m t e
         = process_experience_fn state (kf e) (column e x) j !! t.
Proof.
  intros HE Hx0 Hrect Hlen. unfold vmap_process.
  rewrite zip_with_fmap_l, zip_with_diag.
  set (res := fun e => process_experience_fn state (kf e) (column e x) j).
  destruct (stack1_uniform (res <$> seq 0 (shape1 x)) d0)
    as (m & Hm & Hd & Hw & Hent).
  - destruct (shape1 x); [lia | discriminate].
  - apply Forall_fmap, Forall_forall. intros e He%elem_of_seq. cbn.
    apply Hlen. rewrite length_column by (trivial; lia). exact Hx0.
  - exists m. repeat split; try assumption.
    + now rewrite length_fmap, length_seq in Hw.
    + intros t e He. rewrite Hent. unfold entry.
      rewrite list_lookup_fmap, lookup_seq_lt by exact He. reflexivity.
Qed.

(** X17.  The vectorized-only regime: with [E] environments and results of [d0]
    entries along their leading axis, a leaf of the output has [d0 * E]
    entries, and the entry at [t * E + e] is entry [t] of the result on
    column [e], called with entry [e] of the [E]-way split of the key. *)
Theorem flattened_vectorized_only
    (state : State) (key : Key) (experience : array2 Tr) (j : Leaf)
    (T d0 : nat) :
  0 < shape1 experience -> shape0 experience = T -> rectangular experience ->
  (forall k sl, length sl = T ->
     length (process_experience_fn state k sl j) = d0) ->
  exists flat,
    fn_vectorized_only split_at process_experience_fn state key experience j
    = Some flat
    /\ length flat = d0 * shape1 experience
    /\ forall t e, e < shape1 experience ->
         flat !! (t * shape1 experience + e)
         = process_experience_fn state
             (split_at key (shape1 experience) e) (column e experience) j !! t.
Proof.
  intros HE Hx0 Hrect Hlen. unfold fn_vectorized_only, Random.split.
  destruct (vmap_process_by_index state (split_at key (shape1 experience))
              experience j T d0 HE Hx0 Hrect Hlen)
    as (m & -> & Hd & Hw & Hent).
  cbn [fmap option_fmap option_map]. exists (concat m).
  unfold reshape_merge. repeat split.
  - rewrite (length_concat_uniform m (shape1 experience)) by exact Hw.
    now rewrite Hd.
  - intros t e He.
    rewrite (lookup_concat_uniform m (shape1 experience)) by assumption.
    now apply Hent.
Qed.

Lemma one_environment_outputs (state : State) (key : Key)
    (experience : list (Agent * array2 Tr)) (j : Leaf) :
  Forall (fun ax => shape1 ax.2 = 1) experience ->
  mapM (fun o : Leaf -> option (list (list Y)) => o j)
    (zip_with (fun k x => vmap_process process_experience_fn state k.2 x.2)
       (vectorized_parallel_keys split_at key experience) experience)
  = Some ((fun out : list Y => (fun y => [y]) <$> out)
          <$> imap (fun p ax =>
                      process_experience_fn state
                        (Spec.turn_key split_at key p) (column 0 ax.2) j)
                   experience).
Proof.
  intros Hone. apply mapM_Some_2, Forall2_same_length_lookup_2.
  - rewrite length_zip_with, length_vectorized_parallel_keys, length_fmap,
      length_imap. lia.
  - intros p o out Ho Hout.
    apply lookup_zip_with_Some in Ho as (k & ax & -> & Hk & Hax).
    rewrite vectorized_parallel_keys_lookup, Hax in Hk. cbn in Hk.
    injection Hk as <-.
    rewrite list_lookup_fmap, list_lookup_imap, Hax in Hout. cbn in Hout.
    injection Hout as <-.
    pose proof (Forall_lookup_1 _ _ _ _ Hone Hax) as H1. cbn beta in H1.
    assert (Hw : (fun y : Agent * array2 Tr => shape1 y.2 + 1)
                 <$> take p experience = replicate p 2).
    { apply (widths_uniform experience 1 p).
      - exact Hone.
      - apply lookup_lt_Some in Hax. lia. }
    cbn [fst snd]. rewrite Hw, H1. unfold vmap_process. rewrite H1.
    reflexivity.
Qed.

(** X18.  With one environment per agent the vectorized and parallel regime is the
    parallel-only regime on the single columns: the same sub-keys, the same
    flattened output, the same errors. *)
Theorem one_environment_is_parallel_only
    (state : State) (key : Key) (experience : list (Agent * array2 Tr))
    (j : Leaf) :
  Forall (fun ax => shape1 ax.2 = 1) experience ->
  fn_vectorized_parallel split_at process_experience_fn state key experience j
  = fn_parallel_only split_at process_experience_fn state key
      ((fun ax => (ax.1, column 0 ax.2)) <$> experience) j.
Proof.
  intros Hone. apply Forall_sorted_items in Hone.
  unfold fn_vectorized_parallel, fn_parallel_only,
    outputs_vectorized_parallel, outputs_parallel_only, tree_map_outputs.
  cbn zeta.
  rewrite (sorted_items_fmap
             (fun ax : Agent * array2 Tr => (ax.1, column 0 ax.2))
             (fun _ => eq_refl)).
  revert Hone. generalize (Dict.sorted_items experience). clear experience.
  intros experience Hone.
  rewrite one_environment_outputs by exact Hone.
  rewrite parallel_outputs. cbn [mbind option_bind].
  unfold concat_and_reshape, stack_and_reshape.
  rewrite concatenate1_singletons. rewrite imap_fmap. reflexivity.
Qed.

End Regimes.

End RegimeProofs.

Module LiftExtras.

Import Factory KeyProofs FactoryProofs.

Lemma squeeze0_Some {X : Type} (x y : ndarray X) :
  squeeze0 x = Some y <-> x = expand_dims0 y.
Proof.
  unfold expand_dims0. split.
  - destruct x as [v|[|z [|? ?]]]; cbn; try discriminate. now intros [= ->].
  - now intros ->.
Qed.

Lemma mapM_squeeze0_Some {X : Type} (l k : list (ndarray X)) :
  mapM squeeze0 l = Some k <-> l = expand_dims0 <$> k.
Proof.
  rewrite mapM_Some. split.
  - induction 1 as [|x y l k Hxy Hlk IH]; [reflexivity|].
    apply squeeze0_Some in Hxy. cbn. now rewrite Hxy, IH.
  - intros ->. induction k as [|y k IH]; constructor; [|exact IH].
    now apply squeeze0_Some.
Qed.

Section Explore.

Context {Key State X Hyper : Type}.
Variable explore_fn :
  State -> Key -> list (ndarray X) -> Hyper -> list (ndarray X).

(** X19.  Without vectorization the sampling lift returns [outs] exactly when the
    wrapped function, called on the inputs under a new leading axis of size
    one, returns [outs] under such an axis; on any other result the lift
    raises. *)
Theorem unvectorized_lift_round_trip (state : State) (key : Key)
    (trees : list (ndarray X)) (hyperparams : Hyper)
    (outs : list (ndarray X)) :
  explore_general_factory explore_fn false state key trees hyperparams
  = Some outs
  <-> explore_fn state key (expand_dims0 <$> trees) hyperparams
      = expand_dims0 <$> outs.
Proof.
  unfold explore_general_factory, input_fn, output_fn. cbn [negb].
  apply mapM_squeeze0_Some.
Qed.

End Explore.

Section FreeSplitter.

Context {Agent Tr : Type}.

Lemma vectorized_parallel_keys_extend (key k : Random.path)
    (experience : list (Agent * array2 Tr)) :
  k ∈ concat (snd <$> vectorized_parallel_keys Random.path_split key experience) ->
  exists n i rest, k = key ++ (n, i) :: rest.
Proof.
  revert key. induction experience as [|[agent x] rest IH]; intros key Hk.
  - cbn in Hk. now apply elem_of_nil in Hk.
  - cbn [vectorized_parallel_keys fmap list_fmap snd concat] in Hk.
    rewrite drop_1_split in Hk. apply elem_of_app in Hk as [Hk|Hk].
    + apply list_elem_of_fmap in Hk as (i & -> & _).
      exists (shape1 x + 1), i, []. reflexivity.
    + apply IH in Hk as (n & i & rest' & ->). unfold Random.path_split.
      exists (shape1 x + 1), 0, ((n, i) :: rest'). now rewrite <- app_assoc.
Qed.

Lemma parallel_keys_extend (key k : Random.path)
    (experience : list (Agent * list Tr)) :
  k ∈ snd <$> parallel_keys Random.path_split key experience ->
  exists rest, k = key ++ rest /\ last rest = Some (2, 1).
Proof.
  revert key. induction experience as [|[agent x] rest IH]; intros key Hk.
  - cbn in Hk. now apply elem_of_nil in Hk.
  - cbn [parallel_keys fmap list_fmap snd] in Hk.
    apply elem_of_cons in Hk as [->|Hk].
    + exists [(2, 1)]. split; reflexivity.
    + apply IH in Hk as (rest' & -> & Hlast). unfold Random.path_split.
      exists ((2, 0) :: rest'). rewrite <- app_assoc. split; [reflexivity|].
      destruct rest'; [discriminate | exact Hlast].
Qed.

(** X20.  In the free splitter, where a key is the path of splits that leads to it,
    the lifts over agents never hand out a sub-key twice: the sub-keys of all
    the (agent, environment) pairs are different from each other, and so are
    the sub-keys of the agents when only [parallel]. *)
Theorem sub_keys_never_reused (key : Random.path)
    (experience : list (Agent * array2 Tr))
    (windows : list (Agent * list Tr)) :
  NoDup (concat (snd <$> vectorized_parallel_keys Random.path_split key
                           experience))
  /\ NoDup (snd <$> parallel_keys Random.path_split key windows).
Proof.
  split.
  - revert key. induction experience as [|[agent x] rest IH]; intros key.
    + constructor.
    + cbn [vectorized_parallel_keys fmap list_fmap snd concat].
      rewrite drop_1_split. apply NoDup_app. split; [|split].
      * apply NoDup_fmap_2_strong; [|apply NoDup_seq].
        intros i i' _ _ Heq. unfold Random.path_split in Heq.
        apply app_inv_head in Heq. congruence.
      * intros k Hk Hk'.
        apply list_elem_of_fmap in Hk as (i & -> & Hi%elem_of_seq).
        apply vectorized_parallel_keys_extend in Hk'
          as (n & i' & rest' & Heq).
        unfold Random.path_split in Heq. rewrite <- app_assoc in Heq.
        apply app_inv_head in Heq. cbn in Heq. injection Heq as -> _. lia.
      * apply IH.
  - revert key. induction windows as [|[agent x] rest IH]; intros key.
    + constructor.
    + cbn [parallel_keys fmap list_fmap snd]. apply NoDup_cons. split.
      * intros Hk. apply parallel_keys_extend in Hk as (rest' & Heq & _).
        unfold Random.path_split in Heq. rewrite <- app_assoc in Heq.
        apply app_inv_head in Heq. discriminate.
      * apply IH.
Qed.

End FreeSplitter.

End LiftExtras.

Module IppoBatchProofs.

Import Factory FactoryProofs IppoBatch RegimeProofs.





Lemma concatenate_values_not_KeyError {K X : Type}
    (d : list (K * list (list X))) :
  concatenate_values d <> inl KeyError.
Proof. unfold concatenate_values. destruct (concatenate1 _); discriminate. Qed.

Section Fn.

Context {Agent : Type} `{EqDecision Agent}.

Lemma concatenate_all_not_KeyError {X Y Z G' V' : Type}
    (observations : list (Agent * list (list X)))
    (actions : list (Agent * list (list Y)))
    (log_probs : list (Agent * list (list Z)))
    (gtv : list (Agent * (list (list G') * list (list G') * list (list V')))) :
  concatenate_all observations actions log_probs gtv <> inl KeyError.
Proof.
  unfold concatenate_all.
  repeat match goal with
         | |- context [concatenate_values ?d] =>
             let H := fresh in
             pose proof (concatenate_values_not_KeyError d) as H;
             destruct (concatenate_values d) as [[|]|]; try done; clear H
         end.
Qed.

Section Loop.

Context {O W GTV : Type}.
Variable gaes_fn : O -> O -> W -> W -> error + GTV.
Variable next_observations : list (Agent * O).
Variable dones rewards : list (Agent * W).


Lemma gaes_loop_KeyError (observations : list (Agent * O)) :
  (forall obs next_obs d r, exists gtv, gaes_fn obs next_obs d r = inr gtv) ->
  gaes_loop gaes_fn next_observations dones rewards observations
  = inl KeyError
  <-> Exists (fun ao =>
                getitem ao.1 next_observations = None
                \/ getitem ao.1 dones = None
                \/ getitem ao.1 rewards = None) observations.
Proof.
  intros Hfn. induction observations as [|[agent obs] rest IH].
  - cbn. split; [discriminate | intros Hex; inversion Hex].
  - cbn [gaes_loop]. rewrite Exists_cons. cbn [fst].
    destruct (getitem agent next_observations) as [no|] eqn:Hno;
      [|split; [auto | reflexivity]].
    destruct (getitem agent dones) as [d|] eqn:Hd;
      [|split; [auto | reflexivity]].
    destruct (getitem agent rewards) as [r|] eqn:Hr;
      [|split; [auto | reflexivity]].
    destruct (Hfn obs no d r) as [gtv ->].
    destruct (gaes_loop gaes_fn next_observations dones rewards rest)
      as [e|out]; split.
    + intros [= ->]. right. now apply IH.
    + intros [[?|[?|?]]|Hex]; try discriminate. apply IH in Hex.
      now rewrite Hex.
    + discriminate.
    + intros [[?|[?|?]]|Hex]; try discriminate. now apply IH in Hex.
Qed.

End Loop.


Context {PE PV Hidden G V : Type}.
Variable gamma _lambda : R.
Variable normalize : bool.
Variable calculate_gaes_targets :
  list (list V) -> list (list V) -> list (list R) -> list (list R) -> R ->
  bool -> list (list G) * list (list G).


Section Unvectorized.

Context {F Act Lp : Type}.
Variable encoder_fn : PE -> list (list F) -> list Hidden.
Variable value_fn : PV -> list Hidden -> list (list V).

(** X21.  Without vectorization [fn] raises a [KeyError] exactly when an agent of
    the observations has no entry among the next observations, the dones or
    the rewards. *)
Theorem unvectorized_key_error (params : Ippo.ParamsPolicyValue PE PV)
    (stacked : OnPolicyExp (Agent * list (list F)) (Agent * list Act)
                 (Agent * list Lp) (Agent * list R)) :
  fn_unvectorized gamma _lambda normalize calculate_gaes_targets encoder_fn
    value_fn params stacked = inl KeyError
  <-> Exists (fun ao =>
                getitem ao.1 (next_observation stacked) = None
                \/ getitem ao.1 (done stacked) = None
                \/ getitem ao.1 (reward stacked) = None)
             (observation stacked).
Proof.
  unfold fn_unvectorized.
  pose proof (gaes_loop_KeyError
                (fun obs next_obs d r =>
                   inr (Ippo.compute_values_gaes encoder_fn value_fn gamma
                          _lambda normalize calculate_gaes_targets params obs
                          next_obs d r))
                (next_observation stacked) (done stacked) (reward stacked)
                (observation stacked)) as Hkey.
  destruct (gaes_loop _ _ _ _ _) as [e|gtv].
  - rewrite <- Hkey by eauto. split; intros [= ->]; reflexivity.
  - split.
    + intros Hcat. now apply concatenate_all_not_KeyError in Hcat.
    + intros Hex. apply Hkey in Hex; [discriminate | eauto].
Qed.


End Unvectorized.

End Fn.

End IppoBatchProofs.

Module IppoVectorizedProofs.

Import Factory FactoryProofs IppoBatch RegimeProofs IppoBatchProofs.


Section Fn.

Context {Agent : Type} `{EqDecision Agent}.
Context {PE PV Hidden G V : Type}.
Variable gamma _lambda : R.
Variable normalize : bool.
Variable calculate_gaes_targets :
  list (list V) -> list (list V) -> list (list R) -> list (list R) -> R ->
  bool -> list (list G) * list (list G).

Context {X Act Lp : Type}.
Variable encoder_fn : PE -> list X -> list Hidden.
Variable value_fn : PV -> list Hidden -> list (list V).

Hypothesis Hnet :
  forall pe pv xs, length (value_fn pv (encoder_fn pe xs)) = length xs.
Hypothesis Hcalc :
  forall v nv ds rs,
    length (calculate_gaes_targets v nv ds rs _lambda normalize).1 = length v
    /\ length (calculate_gaes_targets v nv ds rs _lambda normalize).2
       = length v.

Variable params : Ippo.ParamsPolicyValue PE PV.




End Fn.

End IppoVectorizedProofs.

Module Witnesses.

Import Loss Ippo Factory ParallelExplore IppoBatch.
Import LossExtras IppoExtras ParallelExploreProofs ParallelLiftProofs
  RegimeProofs LiftExtras IppoBatchProofs IppoVectorizedProofs.

Local Open Scope R_scope.

Lemma value_loss_unmoved_values_witness :
  exists loss infos,
    loss_value_clip Instances.vec_a Instances.vec_b Instances.vec_a (1 / 5)
    = inr (loss, infos)
    /\ primal loss
       = Spec.mean (zip_with (fun v t => (v - t) ^ 2)
                      (primals Instances.vec_a) (primals Instances.vec_b)).
Proof.
  apply (value_loss_unmoved_values Instances.vec_a Instances.vec_b
           Instances.vec_a (1 / 5));
    [reflexivity | reflexivity | reflexivity | lra].
Defined.

Lemma value_loss_at_least_mse_witness :
  exists loss infos,
    loss_value_clip Instances.vec_a Instances.vec_b Instances.vec_a (1 / 5)
    = inr (loss, infos)
    /\ 0 <= Spec.mean (zip_with (fun v t => (v - t) ^ 2)
                         (primals Instances.vec_a) (primals Instances.vec_b))
       <= primal loss.
Proof.
  apply (value_loss_at_least_mse Instances.vec_a Instances.vec_b
           Instances.vec_a (1 / 5));
    [reflexivity | reflexivity | reflexivity | reflexivity | reflexivity
    | cbn; discriminate].
Defined.

Lemma clipped_policy_loss_pessimistic_witness :
  exists total infos,
    loss_policy_ppo_discrete (fun a => a) Instances.vec_a Instances.vec_a
      Instances.vec_b Instances.vec_b (1 / 5) (1 / 100) = inr (total, infos)
    /\ - Spec.mean (zip_with (fun l oa => exp (l - oa.1) * oa.2)
                      (primals Instances.vec_a)
                      (zip (primals Instances.vec_b)
                         (primals Instances.vec_b)))
       <= primal (loss_policy infos).
Proof.
  apply (clipped_policy_loss_pessimistic (fun a => a) Instances.vec_a
           Instances.vec_a Instances.vec_b Instances.vec_b (1 / 5) (1 / 100));
    [reflexivity | reflexivity | reflexivity | reflexivity | reflexivity
    | cbn; discriminate].
Defined.

Local Close Scope R_scope.

Lemma update_diagnostics_lookup_witness :
  exists state' info,
    update Random.path_split (fun s : nat => s) (fun _ _ => tt)
      Instances.counting_step 2%Z (fun r => r) 0 [] tt = inr (state', info)
    /\ is_Some (info !! "total_loss"%string).
Proof.
  destruct (update_diagnostics_lookup Random.path_split (fun s : nat => s)
              (fun _ _ => tt) Instances.counting_step 2%Z (fun r => r) 0 [] tt)
    as (state' & info & Hrun & Hloss & _); [lia|].
  exists state', info. split; [exact Hrun|]. rewrite Hloss. eauto.
Defined.

Lemma next_values_are_values_shifted_witness :
  (compute_values_gaes_inputs Instances.shift_rows Instances.double_rows 1%R
     (Params tt tt) [1; 2; 3] [2; 3; 9] [0; 0; 1]%R [1; 0; 2]%R).1.1.2 !! 0
  = (compute_values_gaes_inputs Instances.shift_rows Instances.double_rows 1%R
       (Params tt tt) [1; 2; 3] [2; 3; 9] [0; 0; 1]%R [1; 0; 2]%R).1.1.1 !! 1.
Proof.
  apply (next_values_are_values_shifted Instances.shift_rows
           Instances.double_rows 1%R (Params tt tt) [1; 2; 3] [2; 3; 9]
           [0; 0; 1]%R [1; 0; 2]%R 0).
  cbn. lia.
Defined.

Lemma double_shift_rows_length (pe pv : unit) (xs : list nat) :
  length (Instances.double_rows pv (Instances.shift_rows pe xs)) = length xs.
Proof.
  unfold Instances.double_rows, Instances.shift_rows.
  now rewrite !length_fmap.
Qed.

Lemma values_count_witness :
  length (compute_values_gaes_inputs Instances.shift_rows
            Instances.double_rows 1%R (Params tt tt) [1; 2; 3] []
            [0; 0; 1]%R [1; 0; 2]%R).1.1.1 = 2.
Proof.
  apply (values_count Instances.shift_rows Instances.double_rows 1%R
           (Params tt tt) [1; 2; 3] [] [0; 0; 1]%R [1; 0; 2]%R
           double_shift_rows_length).
Defined.

(** Agent ["b"] put in before agent ["a"]: every output dict lists ["a"]
    first. *)
Lemma fn_parallel_transposes_witness :
  exists outs,
    fn_parallel Samples.two_outputs tt [("b"%string, 5); ("a"%string, 1)] tt
    = Some outs
    /\ length outs = 2
    /\ entry outs 0 0 = Some ("a"%string, 1).
Proof.
  destruct (fn_parallel_transposes Samples.two_outputs tt
              [("b"%string, 5); ("a"%string, 1)] "a"%string 1
              [("b"%string, 5)] tt) as (outs & Hrun & Hlen & _ & Hent).
  - reflexivity.
  - repeat constructor.
  - exists outs. split; [exact Hrun|]. split; [exact Hlen|].
    apply (Hent 0 0). cbn. lia.
Defined.

Lemma parallel_lift_agent_by_agent_witness :
  exists res,
    explore_general_factory_parallel Instances.explore_double false tt
      Samples.observers_b_first tt = Some res
    /\ length res = 1
    /\ entry res 0 0 = Some ("a"%string, Arr [Scalar 2]).
Proof.
  destruct (parallel_lift_agent_by_agent Instances.explore_double false tt
              Samples.observers_b_first tt 1)
    as (res & Hrun & Hlen & Hent).
  - discriminate.
  - repeat constructor; eexists; split; reflexivity.
  - exists res. split; [exact Hrun|]. split; [exact Hlen|].
    rewrite (Hent 0 0) by lia. reflexivity.
Defined.

(** Agent ["b"] put in before agent ["a"]: the output starts with step 0 of
    ["a"]. *)
Lemma flattened_parallel_only_witness :
  exists flat,
    fn_parallel_only Random.path_split Instances.window tt []
      Samples.windows_b_first tt = Some flat
    /\ length flat = 2 * 2
    /\ flat !! (0 * 2 + 0) = Some 1.
Proof.
  destruct (flattened_parallel_only Random.path_split Instances.window tt []
              Samples.windows_b_first tt 2) as (flat & Hrun & Hlen & Hent).
  - discriminate.
  - intros [|[|p]] agent x [=]; subst; reflexivity.
  - exists flat. split; [exact Hrun|]. split; [exact Hlen|].
    apply (Hent 0 0 "a"%string [1; 2]). reflexivity.
Defined.

Lemma flattened_vectorized_only_witness :
  exists flat,
    fn_vectorized_only Random.path_split Instances.window tt []
      Samples.one_array tt = Some flat
    /\ length flat = 2 * 2.
Proof.
  destruct (flattened_vectorized_only Random.path_split Instances.window tt
              [] Samples.one_array tt 2 2) as (flat & Hrun & Hlen & _).
  - cbn. lia.
  - reflexivity.
  - repeat constructor.
  - intros k sl Hsl. exact Hsl.
  - exists flat. split; assumption.
Defined.

Lemma one_environment_is_parallel_only_witness :
  fn_vectorized_parallel Random.path_split Instances.window tt []
    Samples.one_column tt
  = fn_parallel_only Random.path_split Instances.window tt []
      ((fun ax => (ax.1, column 0 ax.2)) <$> Samples.one_column) tt.
Proof.
  apply (one_environment_is_parallel_only Random.path_split Instances.window
           tt [] Samples.one_column tt).
  repeat constructor.
Defined.






End Witnesses.
